(** * Collaborative canvas: operation log, room registry, gateway and replay

    A shallow embedding of the server-side operation log
    ([drawing-state.js]), the room registry ([rooms.js]), the socket
    handlers of [server.js] and the redraw loop of the client's
    [CanvasManager], with the properties of the design document stated
    over them.

    Conventions.
    - A JavaScript object whose keys are not fixed by the code (a stroke
      payload sent by a client) is a finite map from property names to
      JavaScript values; object spread is a union in which the later
      source wins.
    - Mutable objects are threaded explicitly: every method takes the
      state of its object and returns the new state with its result.
    - [Date.now()] is an input of the method that reads it. *)

From Stdlib Require Import ZArith QArith_base String List.
From stdpp Require Import gmap strings list pretty.

Local Close Scope Q_scope.
Local Open Scope string_scope.
Local Open Scope list_scope.
Local Open Scope Z_scope.

(** ** JavaScript values *)

(** The values that a JSON-decoded socket message can hold, together with
    [undefined].  Numbers are rationals: every finite double is one, and
    the code modelled here never computes with a number it received. *)
Unset Elimination Schemes.
Inductive value : Type :=
| VUndefined
| VNull
| VBool (b : bool)
| VNum (q : Q)
| VStr (s : string)
| VArr (elems : list value)
| VObj (fields : list (string * value)).
Set Elimination Schemes.

(** ToBoolean, as used by [a || b] and by [if (x)]. *)
Definition truthy (v : value) : bool :=
  match v with
  | VUndefined | VNull => false
  | VBool b => b
  | VNum q => negb (Qeq_bool q (inject_Z 0))
  | VStr s => negb (String.eqb s "")
  | VArr _ | VObj _ => true
  end.

(** The characters of a string, each as a one-character string. *)
Fixpoint chars (s : string) : list value :=
  match s with
  | EmptyString => []
  | String a rest => VStr (String a EmptyString) :: chars rest
  end.

(** [indexed l] is the own-property list of an array-like: the elements
    under their decimal indices. *)
Definition indexed (l : list value) : list (string * value) :=
  imap (fun (i : nat) (v : value) => (pretty i, v)) l.

(** [assign m kvs] writes the bindings of [kvs] into [m] from left to
    right, a later binding of a key replacing an earlier one. *)
Definition assign (m : gmap string value) (kvs : list (string * value))
  : gmap string value :=
  fold_left (fun acc kv => <[kv.1 := kv.2]> acc) kvs m.

(** The own enumerable properties that [{...v}] copies: those of an
    object, the indexed elements of an array or of a string, and nothing
    for [undefined], [null], booleans and numbers. *)
Definition own_props (v : value) : gmap string value :=
  match v with
  | VObj fields => assign ∅ fields
  | VArr elems => assign ∅ (indexed elems)
  | VStr s => assign ∅ (indexed (chars s))
  | VUndefined | VNull | VBool _ | VNum _ => ∅
  end.

(** [{...a, ...b}] on property maps: the properties of [b] replace those
    of [a]. *)
Definition spread (a b : gmap string value) : gmap string value := b ∪ a.

(** ** The operation log ([class DrawingState]) *)

Module DrawingState.

(** An element of [this.operations].  Both methods that push one build
    it as an object literal that ends with [id: this.operationCounter++,
    timestamp: Date.now()]: [op_props] holds the properties listed before
    these two (the spread of the argument of [addOperation]; for
    [clear()], [type: 'clear']), and [op_id] and [op_timestamp] the two
    numbers. *)
Record Operation : Type := mkOperation {
  op_props : gmap string value;
  op_id : Z;
  op_timestamp : Z
}.

(** The object itself: [id] and [timestamp] are written last and replace
    what was copied under those names. *)
Definition object (op : Operation) : gmap string value :=
  <["timestamp" := VNum (inject_Z (op_timestamp op))]>
    (<["id" := VNum (inject_Z (op_id op))]> (op_props op)).

(** The property read [op[k]]. *)
Definition get (op : Operation) (k : string) : value :=
  default VUndefined (object op !! k).

(** The object state: [operations], [operationCounter] and the set
    [undoneOperations].  The counter is a JavaScript number; an array
    holds fewer than 2^32 elements, so the counter stays far below 2^53
    and [++] is exact integer increment. *)
Record state : Type := mkState {
  operations : list Operation;
  operationCounter : Z;
  undoneOperations : gset Z
}.

(** [constructor()] *)
Definition new : state :=
  {| operations := []; operationCounter := 0; undoneOperations := ∅ |}.

(** [addOperation(operation)]: [{...operation, id: counter++,
    timestamp: Date.now()}] is pushed, the undone set is cleared, and
    the stored operation is returned. *)
Definition addOperation (now : Z) (operation : gmap string value) (st : state)
  : state * Operation :=
  let op := {| op_props := operation;
               op_id := operationCounter st;
               op_timestamp := now |} in
  ({| operations := operations st ++ [op];
      operationCounter := operationCounter st + 1;
      undoneOperations := ∅ |},
   op).

(** What [undo()] and [redo()] return when they find a target:
    [{type: 'undo', operationId}] or [{type: 'redo', operationId}]. *)
Inductive result : Type :=
| Undo (operationId : Z)
| Redo (operationId : Z).

Definition operationId (r : result) : Z :=
  match r with Undo i | Redo i => i end.

(** The loop of [undo()]: [n] is [i + 1] for the loop index [i], which
    runs from [operations.length - 1] down to [0]; the first operation
    met whose id is not in the undone set is the target.  The index is
    always below the length, so the lookup never misses. *)
Fixpoint undo_scan (ops : list Operation) (undone : gset Z) (n : nat)
  : option Z :=
  match n with
  | O => None
  | S i =>
      match ops !! i with
      | Some op =>
          if decide (op_id op ∈ undone) then undo_scan ops undone i
          else Some (op_id op)
      | None => None
      end
  end.

(** [undo()]: the target's id is added to the undone set; [null] when
    the loop finds none. *)
Definition undo (st : state) : state * option result :=
  match undo_scan (operations st) (undoneOperations st)
          (length (operations st)) with
  | Some i =>
      ({| operations := operations st;
          operationCounter := operationCounter st;
          undoneOperations := {[i]} ∪ undoneOperations st |},
       Some (Undo i))
  | None => (st, None)
  end.

(** The loop of [redo()], from a given value of [lastUndoneId]: the
    variable is replaced by the id of each operation that is in the
    undone set and has a larger id. *)
Definition redo_from (undone : gset Z) (ops : list Operation) (a : Z) : Z :=
  fold_left
    (fun lastUndoneId op =>
       if bool_decide (op_id op ∈ undone) && (op_id op >? lastUndoneId)%Z
       then op_id op else lastUndoneId)
    ops a.

(** [lastUndoneId] starts at [-1]. *)
Definition redo_scan (ops : list Operation) (undone : gset Z) : Z :=
  redo_from undone ops (-1).

(** [redo()]: when the loop moved [lastUndoneId] off [-1], that id is
    deleted from the undone set; otherwise [null]. *)
Definition redo (st : state) : state * option result :=
  let lastUndoneId := redo_scan (operations st) (undoneOperations st) in
  if bool_decide (lastUndoneId ≠ -1) then
    ({| operations := operations st;
        operationCounter := operationCounter st;
        undoneOperations := undoneOperations st ∖ {[lastUndoneId]} |},
     Some (Redo lastUndoneId))
  else (st, None).

(** [getActiveOperations()] *)
Definition getActiveOperations (st : state) : list Operation :=
  filter (fun op => op_id op ∉ undoneOperations st) (operations st).

(** [getFullState()].  The receiver rebuilds a set from the
    [undoneOperations] array, so the array is kept as the set it
    lists. *)
Definition getFullState (st : state) : list Operation * gset Z * Z :=
  (operations st, undoneOperations st, operationCounter st).

(** [clear()]: pushes [{type: 'clear', id: counter++, timestamp}] and
    clears the undone set. *)
Definition clear (now : Z) (st : state) : state * Operation :=
  let clearOp := {| op_props := {[ "type" := VStr "clear" ]};
                    op_id := operationCounter st;
                    op_timestamp := now |} in
  ({| operations := operations st ++ [clearOp];
      operationCounter := operationCounter st + 1;
      undoneOperations := ∅ |},
   clearOp).

(** [getStats()] *)
Definition getStats (st : state) : nat * nat * nat :=
  (length (operations st),
   length (getActiveOperations st),
   size (undoneOperations st)).

(** A call of one of the four mutating methods, with the inputs it
    reads. *)
Inductive call : Type :=
| CallAdd (now : Z) (operation : gmap string value)
| CallClear (now : Z)
| CallUndo
| CallRedo.

Definition exec (c : call) (st : state) : state :=
  match c with
  | CallAdd now operation => (addOperation now operation st).1
  | CallClear now => (clear now st).1
  | CallUndo => (undo st).1
  | CallRedo => (redo st).1
  end.

(** The log after a sequence of calls on a fresh [DrawingState]. *)
Definition run (cs : list call) : state :=
  fold_left (fun st c => exec c st) cs new.

(** The ids of the stored operations, in history order. *)
Definition ids (st : state) : list Z := op_id <$> operations st.

(** An operation is visible when its id is not in the undone set. *)
Definition visible (st : state) (op : Operation) : Prop :=
  op_id op ∉ undoneOperations st.

End DrawingState.

(** ** The client's replay of the log ([class CanvasManager]) *)

Module CanvasManager.

(** A path point [{x, y}]. *)
Record point : Type := mkPoint { px : Q; py : Q }.

(** An element of the client's [this.operations], as the redraw loop
    reads it: its [id], its [type], and for a stroke the [points],
    [color], [size] and [tool] of the wire format.  [Other] is an
    operation whose [type] is neither ['stroke'] nor ['clear']. *)
Inductive Operation : Type :=
| Stroke (id : Z) (points : list point) (color : string) (size : Q)
         (tool : string)
| Clear (id : Z)
| Other (id : Z).

Definition op_id (op : Operation) : Z :=
  match op with Stroke i _ _ _ _ | Clear i | Other i => i end.

(** What is on the canvas.  Pixels are not modelled: the canvas is the
    sequence of paths stroked onto it since it was last wiped by
    [clearRect(0, 0, width, height)], each with the arguments
    [renderStroke] was given. *)
Record path : Type := mkPath {
  path_points : list point;
  path_color : string;
  path_size : Q;
  path_eraser : bool
}.

Definition blank : list path := [].

(** A method either returns or throws a [TypeError]; both carry the
    state the object is left in. *)
Inductive outcome (A : Type) : Type :=
| Returned (a : A)
| TypeError (a : A).
Arguments Returned {A} a.
Arguments TypeError {A} a.

(** [renderStroke(points, color, size, isEraser)].  An empty path
    returns at once.  Otherwise the path is begun at [points[0]]; with
    more than two points it is continued by curves, and in every other
    case by [lineTo(points[1].x, points[1].y)], which reads a property
    of [undefined] and throws when there is exactly one point.  The
    path reaches the canvas at [ctx.stroke()], after that line. *)
Definition renderStroke (points : list point) (color : string) (size : Q)
    (isEraser : bool) (canvas : list path) : outcome (list path) :=
  match points with
  | [] => Returned canvas
  | [_] => TypeError canvas
  | _ => Returned (canvas ++ [mkPath points color size isEraser])
  end.

(** The body of the [for (const op of this.operations)] loop of
    [redrawCanvas()], for one operation. *)
Definition redraw_step (undone : gset Z) (op : Operation)
    (canvas : list path) : outcome (list path) :=
  if decide (op_id op ∈ undone) then Returned canvas
  else
    match op with
    | Stroke _ points color size tool =>
        renderStroke points color size (String.eqb tool "eraser") canvas
    | Clear _ => Returned blank
    | Other _ => Returned canvas
    end.

(** The loop itself: an exception leaves the loop with the operations
    after the throwing one not visited. *)
Fixpoint redraw_loop (undone : gset Z) (ops : list Operation)
    (canvas : list path) : outcome (list path) :=
  match ops with
  | [] => Returned canvas
  | op :: rest =>
      match redraw_step undone op canvas with
      | Returned canvas' => redraw_loop undone rest canvas'
      | TypeError canvas' => TypeError canvas'
      end
  end.

(** The fields of the object that the replay uses. *)
Record state : Type := mkState {
  operations : list Operation;
  undoneOperations : gset Z;
  operationCount : nat;
  canvas : list path
}.

Definition with_canvas (st : state) (c : list path) : state :=
  {| operations := operations st;
     undoneOperations := undoneOperations st;
     operationCount := operationCount st;
     canvas := c |}.

Definition lift (st : state) (r : outcome (list path)) : outcome state :=
  match r with
  | Returned c => Returned (with_canvas st c)
  | TypeError c => TypeError (with_canvas st c)
  end.

(** [redrawCanvas()]: wipe, then replay the history in order. *)
Definition redrawCanvas (st : state) : outcome state :=
  lift st (redraw_loop (undoneOperations st) (operations st) blank).

(** [initializeState(state)] *)
Definition initializeState (ops : list Operation) (undone : gset Z)
    (st : state) : outcome state :=
  redrawCanvas
    {| operations := ops;
       undoneOperations := undone;
       operationCount := length ops;
       canvas := canvas st |}.

(** [handleUndo(undoData)] *)
Definition handleUndo (operationId : Z) (st : state) : outcome state :=
  redrawCanvas
    {| operations := operations st;
       undoneOperations := {[operationId]} ∪ undoneOperations st;
       operationCount := operationCount st;
       canvas := canvas st |}.

(** [handleRedo(redoData)] *)
Definition handleRedo (operationId : Z) (st : state) : outcome state :=
  redrawCanvas
    {| operations := operations st;
       undoneOperations := undoneOperations st ∖ {[operationId]};
       operationCount := operationCount st;
       canvas := canvas st |}.

(** [addOperation(operation)]: an operation whose id is already in the
    history is dropped; otherwise it is pushed and, unless undone,
    drawn over the current canvas. *)
Definition addOperation (operation : Operation) (st : state)
  : outcome state :=
  if existsb (fun op => Z.eqb (op_id op) (op_id operation)) (operations st)
  then Returned st
  else
    let st' := {| operations := operations st ++ [operation];
                  undoneOperations := undoneOperations st;
                  operationCount := length (operations st ++ [operation]);
                  canvas := canvas st |} in
    lift st' (redraw_step (undoneOperations st) operation (canvas st)).

(** [clearCanvas()] and [handleClear()] *)
Definition clearCanvas (st : state) : state := with_canvas st blank.
Definition handleClear (st : state) : state := clearCanvas st.

(** The canvas an outcome leaves behind. *)
Definition shown (r : outcome state) : list path :=
  match r with Returned st | TypeError st => canvas st end.

Definition final (r : outcome state) : state :=
  match r with Returned st | TypeError st => st end.

End CanvasManager.

(** ** [Map] with string keys *)

(** A JavaScript [Map] keeps its entries in insertion order, and
    [Array.from(map.values())] lists them in that order: the entries are
    an association list with one entry per key. *)
Module JsMap.
Section Entries.
Context {V : Type}.

Fixpoint get (k : string) (m : list (string * V)) : option V :=
  match m with
  | [] => None
  | (k', v) :: rest => if String.eqb k' k then Some v else get k rest
  end.

(** [set] replaces the value of an existing key in place and appends
    a new key at the end. *)
Fixpoint set (k : string) (v : V) (m : list (string * V))
  : list (string * V) :=
  match m with
  | [] => [(k, v)]
  | (k', v') :: rest =>
      if String.eqb k' k then (k', v) :: rest
      else (k', v') :: set k v rest
  end.

Fixpoint delete (k : string) (m : list (string * V))
  : list (string * V) :=
  match m with
  | [] => []
  | (k', v') :: rest =>
      if String.eqb k' k then rest else (k', v') :: delete k rest
  end.

Definition size (m : list (string * V)) : nat := length m.
Definition values (m : list (string * V)) : list V := snd <$> m.
Definition keys (m : list (string * V)) : list string := fst <$> m.
End Entries.
End JsMap.

(** ** The room registry ([class RoomManager]) *)

Module RoomManager.

(** [this.userColors] *)
Definition userColors : list string :=
  [ "#FF6B6B"; "#4ECDC4"; "#45B7D1"; "#FFA07A";
    "#98D8C8"; "#F7DC6F"; "#BB8FCE"; "#85C1E2";
    "#F8B739"; "#52B788"; "#E76F51"; "#2A9D8F" ].

(** A user object.  [name] is whatever truthy value the client sent as
    [userName], or the generated string. *)
Record User : Type := mkUser {
  user_id : string;
  user_name : value;
  user_color : string;
  user_cursor : value;
  user_joinedAt : Z
}.

Record Room : Type := mkRoom {
  room_id : string;
  drawingState : DrawingState.state;
  users : list (string * User);
  usedColors : gset string;
  createdAt : Z
}.

(** The registry: the [rooms] map, and the clean-up timers that
    [removeUser] has started and that have not fired yet, oldest
    first (all have the same delay). *)
Record state : Type := mkState {
  rooms : gmap string Room;
  timers : list string
}.

Definition new : state := {| rooms := ∅; timers := [] |}.

Definition newRoom (now : Z) (roomId : string) : Room :=
  {| room_id := roomId;
     drawingState := DrawingState.new;
     users := [];
     usedColors := ∅;
     createdAt := now |}.

(** [getRoom(roomId)] *)
Definition getRoom (now : Z) (roomId : string) (m : state) : state * Room :=
  match rooms m !! roomId with
  | Some room => (m, room)
  | None =>
      ({| rooms := <[roomId := newRoom now roomId]> (rooms m);
          timers := timers m |},
       newRoom now roomId)
  end.

(** Writing back a room object that a method has mutated. *)
Definition putRoom (roomId : string) (room : Room) (m : state) : state :=
  {| rooms := <[roomId := room]> (rooms m); timers := timers m |}.

(** The colour chosen by [addUser]: the first palette colour that the
    room does not use, and [userColors[users.size % userColors.length]]
    when there is none.  The index is below the palette's length, so
    the read is of an element. *)
Definition pickColor (room : Room) : string :=
  let availableColors :=
    filter (fun color => color ∉ usedColors room) userColors in
  match availableColors with
  | color :: _ => color
  | [] =>
      default ""
        (userColors !! (JsMap.size (users room) mod length userColors)%nat)
  end.

(** [addUser(roomId, socketId, userInfo)], with [name] the value of
    [userInfo.name]. *)
Definition addUser (now : Z) (roomId socketId : string) (name : value)
    (m : state) : state * User :=
  let '(m1, room) := getRoom now roomId m in
  let color := pickColor room in
  let user :=
    {| user_id := socketId;
       user_name :=
         if truthy name then name
         else VStr ("User" +:+ pretty (JsMap.size (users room) + 1)%nat);
       user_color := color;
       user_cursor := VNull;
       user_joinedAt := now |} in
  (putRoom roomId
     {| room_id := room_id room;
        drawingState := drawingState room;
        users := JsMap.set socketId user (users room);
        usedColors := {[color]} ∪ usedColors room;
        createdAt := createdAt room |}
     m1,
   user).

(** [removeUser(roomId, socketId)]: when the room is left empty, a
    clean-up timer for it is started. *)
Definition removeUser (roomId socketId : string) (m : state) : state :=
  match rooms m !! roomId with
  | None => m
  | Some room =>
      let room' :=
        match JsMap.get socketId (users room) with
        | Some user =>
            {| room_id := room_id room;
               drawingState := drawingState room;
               users := JsMap.delete socketId (users room);
               usedColors := usedColors room ∖ {[user_color user]};
               createdAt := createdAt room |}
        | None => room
        end in
      {| rooms := <[roomId := room']> (rooms m);
         timers :=
           if Nat.eqb (JsMap.size (users room')) 0
           then timers m ++ [roomId] else timers m |}
  end.

(** The callback of a clean-up timer. *)
Definition cleanUp (roomId : string) (m : state) : state :=
  match rooms m !! roomId with
  | Some currentRoom =>
      if Nat.eqb (JsMap.size (users currentRoom)) 0
      then {| rooms := delete roomId (rooms m); timers := timers m |}
      else m
  | None => m
  end.

(** The oldest pending timer fires. *)
Definition fireTimer (m : state) : state :=
  match timers m with
  | [] => m
  | roomId :: rest =>
      cleanUp roomId {| rooms := rooms m; timers := rest |}
  end.

(** [updateUserCursor(roomId, socketId, cursor)] *)
Definition updateUserCursor (roomId socketId : string) (cursor : value)
    (m : state) : state :=
  match rooms m !! roomId with
  | None => m
  | Some room =>
      match JsMap.get socketId (users room) with
      | Some user =>
          putRoom roomId
            {| room_id := room_id room;
               drawingState := drawingState room;
               users :=
                 JsMap.set socketId
                   {| user_id := user_id user;
                      user_name := user_name user;
                      user_color := user_color user;
                      user_cursor := cursor;
                      user_joinedAt := user_joinedAt user |}
                   (users room);
               usedColors := usedColors room;
               createdAt := createdAt room |}
            m
      | None => m
      end
  end.

(** [getRoomUsers(roomId)] *)
Definition getRoomUsers (roomId : string) (m : state) : list User :=
  match rooms m !! roomId with
  | None => []
  | Some room => JsMap.values (users room)
  end.

(** [getUser(roomId, socketId)] *)
Definition getUser (roomId socketId : string) (m : state) : option User :=
  match rooms m !! roomId with
  | None => None
  | Some room => JsMap.get socketId (users room)
  end.

(** [getRoomStats(roomId)] *)
Record Stats : Type := mkStats {
  stats_id : string;
  userCount : nat;
  stats_users : list User;
  drawingStats : nat * nat * nat;
  stats_createdAt : Z
}.

Definition getRoomStats (roomId : string) (m : state) : option Stats :=
  match rooms m !! roomId with
  | None => None
  | Some room =>
      Some {| stats_id := roomId;
              userCount := JsMap.size (users room);
              stats_users := getRoomUsers roomId m;
              drawingStats := DrawingState.getStats (drawingState room);
              stats_createdAt := createdAt room |}
  end.

(** The log that [getRoom(roomId).drawingState] denotes: the room's
    log, or the empty log of the room that [getRoom] would create. *)
Definition logOf (roomId : string) (m : state) : DrawingState.state :=
  match rooms m !! roomId with
  | Some room => drawingState room
  | None => DrawingState.new
  end.

End RoomManager.

(** ** The gateway (the socket handlers of [server.js]) *)

Module Server.
Import RoomManager.

(** The variables that the [io.on('connection')] closure of one socket
    holds.  [currentUser] is the object [addUser] returned; the
    handlers read its [name] and [color] only, which never change. *)
Record Connection : Type := mkConnection {
  socket_id : string;
  currentRoom : string;
  currentUser : option User
}.

(** The closure as [io.on('connection')] creates it. *)
Definition connect (socketId : string) : Connection :=
  {| socket_id := socketId; currentRoom := "default"; currentUser := None |}.

(** Where an emission goes: [socket.emit], [io.to(room).emit] and
    [socket.to(room).emit]. *)
Inductive target : Type :=
| ToSocket (socketId : string)
| ToRoom (roomId : string)
| ToOthers (roomId : string) (socketId : string).

(** The emitted events with their payloads. *)
Inductive message : Type :=
| InitCanvas (user : User) (state : list DrawingState.Operation * gset Z * Z)
             (users : list User)
| UserJoined (user : User) (users : list User)
| DrawStroke (operation : DrawingState.Operation)
| CursorMove (userId : string) (userName color cursor : value)
| UndoEvent (undoResult : DrawingState.result)
| RedoEvent (redoResult : DrawingState.result)
| ClearCanvas (clearOp : DrawingState.Operation)
| UserToolChange (userId : string) (userName tool : value)
| RoomStats (stats : option Stats)
| UserLeft (userId : string) (userName : value) (users : list User).

(** [currentUser?.name] and [currentUser?.color] *)
Definition nameOf (u : option User) : value :=
  match u with Some user => user_name user | None => VUndefined end.

Definition colorOf (u : option User) : value :=
  match u with Some user => VStr (user_color user) | None => VUndefined end.

Definition withLog (room : Room) (log : DrawingState.state) : Room :=
  {| room_id := room_id room;
     drawingState := log;
     users := users room;
     usedColors := usedColors room;
     createdAt := createdAt room |}.

(** What a handler leaves behind: the closure variables, the registry,
    and the emissions it made, in order. *)
Definition effect : Type :=
  Connection * RoomManager.state * list (target * message).

(** [socket.on('join-room')].  The message is [{roomId, userName}] with
    [roomId] a string, as the client sends it; [roomIdArg] is [None]
    when the property is missing, in which case the destructuring
    default ['default'] applies.  [socket.join(roomId)] only decides
    which sockets an emission to the room reaches; emissions are recorded
    with their target, not with their recipients. *)
Definition onJoinRoom (now : Z) (roomIdArg : option string) (userName : value)
    (c : Connection) (m : RoomManager.state) : effect :=
  let roomId := default "default" roomIdArg in
  let '(m1, user) := addUser now roomId (socket_id c) userName m in
  let '(m2, room) := getRoom now roomId m1 in
  ({| socket_id := socket_id c;
      currentRoom := roomId;
      currentUser := Some user |},
   m2,
   [ (ToSocket (socket_id c),
      InitCanvas user (DrawingState.getFullState (drawingState room))
        (getRoomUsers roomId m2));
     (ToOthers roomId (socket_id c),
      UserJoined user (getRoomUsers roomId m2)) ]).

(** The argument of [addOperation] in the ['draw-stroke'] handler:
    [{type: 'stroke', userId: socket.id, userName: currentUser?.name,
    ...data}].  The spread of [data] comes last. *)
Definition strokeOperation (c : Connection) (data : value)
  : gmap string value :=
  spread
    (<["userName" := nameOf (currentUser c)]>
       (<["userId" := VStr (socket_id c)]>
          {[ "type" := VStr "stroke" ]}))
    (own_props data).

(** [socket.on('draw-stroke')] *)
Definition onDrawStroke (now : Z) (data : value)
    (c : Connection) (m : RoomManager.state) : effect :=
  let '(m1, room) := getRoom now (currentRoom c) m in
  let '(log, operation) :=
    DrawingState.addOperation now (strokeOperation c data)
      (drawingState room) in
  (c, putRoom (currentRoom c) (withLog room log) m1,
   [ (ToRoom (currentRoom c), DrawStroke operation) ]).

(** [socket.on('cursor-move')] *)
Definition onCursorMove (cursor : value)
    (c : Connection) (m : RoomManager.state) : effect :=
  (c, updateUserCursor (currentRoom c) (socket_id c) cursor m,
   [ (ToOthers (currentRoom c) (socket_id c),
      CursorMove (socket_id c) (nameOf (currentUser c))
        (colorOf (currentUser c)) cursor) ]).

(** [socket.on('undo')] *)
Definition onUndo (now : Z) (c : Connection) (m : RoomManager.state)
  : effect :=
  let '(m1, room) := getRoom now (currentRoom c) m in
  let '(log, undoResult) := DrawingState.undo (drawingState room) in
  (c, putRoom (currentRoom c) (withLog room log) m1,
   match undoResult with
   | Some r => [ (ToRoom (currentRoom c), UndoEvent r) ]
   | None => []
   end).

(** [socket.on('redo')] *)
Definition onRedo (now : Z) (c : Connection) (m : RoomManager.state)
  : effect :=
  let '(m1, room) := getRoom now (currentRoom c) m in
  let '(log, redoResult) := DrawingState.redo (drawingState room) in
  (c, putRoom (currentRoom c) (withLog room log) m1,
   match redoResult with
   | Some r => [ (ToRoom (currentRoom c), RedoEvent r) ]
   | None => []
   end).

(** [socket.on('clear-canvas')] *)
Definition onClearCanvas (now : Z) (c : Connection) (m : RoomManager.state)
  : effect :=
  let '(m1, room) := getRoom now (currentRoom c) m in
  let '(log, clearOp) := DrawingState.clear now (drawingState room) in
  (c, putRoom (currentRoom c) (withLog room log) m1,
   [ (ToRoom (currentRoom c), ClearCanvas clearOp) ]).

(** [socket.on('tool-change')] *)
Definition onToolChange (tool : value)
    (c : Connection) (m : RoomManager.state) : effect :=
  (c, m,
   [ (ToOthers (currentRoom c) (socket_id c),
      UserToolChange (socket_id c) (nameOf (currentUser c)) tool) ]).

(** [socket.on('get-room-stats')] *)
Definition onGetRoomStats (c : Connection) (m : RoomManager.state)
  : effect :=
  (c, m, [ (ToSocket (socket_id c), RoomStats (getRoomStats (currentRoom c) m)) ]).

(** [socket.on('disconnect')]: [currentRoom && currentUser] holds for a
    non-empty room id and a user object. *)
Definition onDisconnect (c : Connection) (m : RoomManager.state) : effect :=
  match currentUser c with
  | Some user =>
      if String.eqb (currentRoom c) "" then (c, m, [])
      else
        let m1 := removeUser (currentRoom c) (socket_id c) m in
        (c, m1,
         [ (ToOthers (currentRoom c) (socket_id c),
            UserLeft (socket_id c) (user_name user)
              (getRoomUsers (currentRoom c) m1)) ])
  | None => (c, m, [])
  end.

(** A message a socket sends (or its disconnection). *)
Inductive input : Type :=
| JoinRoom (roomId : option string) (userName : value)
| DrawStrokeIn (data : value)
| CursorMoveIn (cursor : value)
| UndoIn
| RedoIn
| ClearCanvasIn
| ToolChangeIn (tool : value)
| GetRoomStatsIn
| Disconnect.

Definition handle (now : Z) (i : input)
    (c : Connection) (m : RoomManager.state) : effect :=
  match i with
  | JoinRoom roomId userName => onJoinRoom now roomId userName c m
  | DrawStrokeIn data => onDrawStroke now data c m
  | CursorMoveIn cursor => onCursorMove cursor c m
  | UndoIn => onUndo now c m
  | RedoIn => onRedo now c m
  | ClearCanvasIn => onClearCanvas now c m
  | ToolChangeIn tool => onToolChange tool c m
  | GetRoomStatsIn => onGetRoomStats c m
  | Disconnect => onDisconnect c m
  end.

(** The process: the registry, the closures of the sockets that have
    sent something and are still connected, and everything emitted so
    far. *)
Record state : Type := mkState {
  manager : RoomManager.state;
  connections : gmap string Connection;
  emitted : list (target * message)
}.

Definition init : state :=
  {| manager := RoomManager.new; connections := ∅; emitted := [] |}.

(** The closure of a socket: the one it has, or the one
    [io.on('connection')] made for it if it has not been heard of. *)
Definition connectionOf (socketId : string) (s : state) : Connection :=
  default (connect socketId) (connections s !! socketId).

(** One turn of the event loop: a message from a socket, handled at
    clock reading [now], or the firing of the oldest clean-up timer. *)
Inductive event : Type :=
| Receive (now : Z) (socketId : string) (i : input)
| TimerFires.

Definition step (e : event) (s : state) : state :=
  match e with
  | Receive now socketId i =>
      let '(c, m, out) := handle now i (connectionOf socketId s) (manager s) in
      {| manager := m;
         connections :=
           match i with
           | Disconnect => delete socketId (connections s)
           | _ => <[socketId := c]> (connections s)
           end;
         emitted := emitted s ++ out |}
  | TimerFires =>
      {| manager := fireTimer (manager s);
         connections := connections s;
         emitted := emitted s |}
  end.

Definition run (es : list event) : state :=
  fold_left (fun s e => step e s) es init.

End Server.

(** ** Invariants and vocabulary of the statements *)

(** The state invariant of a log: the ids are [0, 1, ..., n-1] in history
    order, the counter is [n], and only stored ids are undone. *)
Definition wf (st : DrawingState.state) : Prop :=
  DrawingState.ids st
    = seqZ 0 (Z.of_nat (length (DrawingState.operations st)))
  ∧ DrawingState.operationCounter st
      = Z.of_nat (length (DrawingState.operations st))
  ∧ (∀ i, i ∈ DrawingState.undoneOperations st → i ∈ DrawingState.ids st).

(** Every log of the registry is well formed. *)
Definition logs_wf (m : RoomManager.state) : Prop :=
  ∀ r, wf (RoomManager.logOf r m).

(** The operation that the ['draw-stroke'] handler stores and
    broadcasts. *)
Definition storedStroke (now : Z) (data : value) (c : Server.Connection)
    (m : RoomManager.state) : DrawingState.Operation :=
  (DrawingState.addOperation now (Server.strokeOperation c data)
     (RoomManager.logOf (Server.currentRoom c) m)).2.

(** The [join-room] messages of thirteen sockets to one room. *)
Definition thirteenJoins : list Server.event :=
  (λ sid, Server.Receive 0 sid (Server.JoinRoom (Some "room") VUndefined))
    <$> ["a"; "b"; "c"; "d"; "e"; "f"; "g"; "h"; "i"; "j"; "k"; "l"; "m"].

(** An operation that [renderStroke] can draw: anything but a stroke with
    exactly one point. *)
Definition drawable (op : CanvasManager.Operation) : Prop :=
  match op with
  | CanvasManager.Stroke _ [_] _ _ _ => False
  | _ => True
  end.

(** The representation invariant of a room: it is stored under its own
    id, its members are keyed by their socket ids, one entry each, and
    every colour held by a member or marked used is a palette colour. *)
Definition room_ok (r : string) (room : RoomManager.Room) : Prop :=
  RoomManager.room_id room = r
  ∧ NoDup (JsMap.keys (RoomManager.users room))
  ∧ (∀ k u, (k, u) ∈ RoomManager.users room →
            RoomManager.user_id u = k
            ∧ RoomManager.user_color u ∈ RoomManager.userColors)
  ∧ (∀ color, color ∈ RoomManager.usedColors room →
              color ∈ RoomManager.userColors).

Definition registry_ok (m : RoomManager.state) : Prop :=
  ∀ r room, RoomManager.rooms m !! r = Some room → room_ok r room.

(** The colours marked used in a room (none when there is no such
    room). *)
Definition usedColorsOf (r : string) (m : RoomManager.state) : gset string :=
  match RoomManager.rooms m !! r with
  | Some room => RoomManager.usedColors room
  | None => ∅
  end.

(** A sequence of [addUser] calls for one room, each with its clock
    reading, socket id and [userInfo.name]. *)
Definition joinAll (r : string) (joins : list (Z * string * value))
    (m : RoomManager.state) : RoomManager.state :=
  fold_left
    (λ m' join, (RoomManager.addUser join.1.1 r join.1.2 join.2 m').1)
    joins m.

(** The closure of a socket agrees with the registry: it is filed under
    its own socket id, and the user object it holds, if any, is the
    entry of that socket in the closure's current room, up to the
    cursor. *)
Definition connection_ok (sid : string) (c : Server.Connection)
    (m : RoomManager.state) : Prop :=
  Server.socket_id c = sid
  ∧ ∀ u, Server.currentUser c = Some u →
         ∃ u', RoomManager.getUser (Server.currentRoom c) sid m = Some u'
               ∧ RoomManager.user_id u' = sid
               ∧ RoomManager.user_name u' = RoomManager.user_name u
               ∧ RoomManager.user_color u' = RoomManager.user_color u.

Definition connections_ok (s : Server.state) : Prop :=
  ∀ sid c, Server.connections s !! sid = Some c →
           connection_ok sid c (Server.manager s).

(** * Properties *)

(** ** The operation log *)

Section LogLemmas.
Import DrawingState.

Implicit Types (st : state) (ops : list Operation) (undone : gset Z).

Lemma wf_new : wf new.
Proof. repeat split. intros i Hi. set_solver. Qed.

Lemma wf_append st props now :
  wf st →
  wf {| operations :=
          operations st ++ [mkOperation props (operationCounter st) now];
        operationCounter := operationCounter st + 1;
        undoneOperations := ∅ |}.
Proof.
  intros (Hids & Hc & _). unfold wf, ids in *. cbn.
  rewrite fmap_app, length_app, Hids. cbn.
  replace (length (operations st) + 1)%nat with (S (length (operations st)))
    by lia.
  rewrite seqZ_S, Hc. repeat split; [lia | set_solver].
Qed.

Lemma wf_addOperation st now operation :
  wf st → wf (addOperation now operation st).1.
Proof. apply wf_append. Qed.

Lemma wf_clear st now : wf st → wf (clear now st).1.
Proof. apply wf_append. Qed.

(** *** The backward scan of [undo()] *)

Lemma undo_scan_prefix ops ops' undone n :
  (n ≤ length ops)%nat →
  undo_scan (ops ++ ops') undone n = undo_scan ops undone n.
Proof.
  induction n as [|i IH]; intros Hn; [done|]. cbn.
  rewrite lookup_app_l by lia.
  destruct (ops !! i) as [op|]; [|done].
  case_decide; [apply IH; lia | done].
Qed.

Lemma undo_scan_snoc ops op undone :
  undo_scan (ops ++ [op]) undone (S (length ops)) =
  if decide (op_id op ∈ undone) then undo_scan ops undone (length ops)
  else Some (op_id op).
Proof.
  cbn. rewrite list_lookup_middle by done.
  case_decide; [by apply undo_scan_prefix | done].
Qed.

(** The scan over the whole history returns the id of the last
    operation, in history order, that is not undone. *)
Lemma undo_scan_spec ops undone :
  match undo_scan ops undone (length ops) with
  | Some i =>
      ∃ pre op post,
        ops = pre ++ op :: post ∧ op_id op = i ∧ (i ∉ undone)
        ∧ Forall (λ o, op_id o ∈ undone) post
  | None => Forall (λ o, op_id o ∈ undone) ops
  end.
Proof.
  induction ops as [|op ops IH] using rev_ind; [by constructor|].
  rewrite length_app. cbn [length].
  replace (length ops + 1)%nat with (S (length ops)) by lia.
  rewrite undo_scan_snoc. case_decide as Hin.
  - destruct (undo_scan ops undone (length ops)) as [i|].
    + destruct IH as (pre & o & post & -> & <- & Hni & Hpost).
      exists pre, o, (post ++ [op]). rewrite <- app_assoc. cbn.
      repeat split; [done|]. apply Forall_app. split; [done|].
      by constructor.
    + apply Forall_app. split; [done|]. by constructor.
  - exists ops, op, []. repeat split; [done|constructor].
Qed.

(** Conversely, a decomposition around the last visible operation
    fixes what the scan returns. *)
Lemma undo_scan_last_visible pre op post undone :
  op_id op ∉ undone →
  Forall (λ o, op_id o ∈ undone) post →
  undo_scan (pre ++ op :: post) undone (length (pre ++ op :: post))
  = Some (op_id op).
Proof.
  intros Hop Hpost. induction post as [|o post IH] using rev_ind.
  - rewrite length_app. cbn [length].
    replace (length pre + 1)%nat with (S (length pre)) by lia.
    rewrite undo_scan_snoc. by rewrite decide_False.
  - apply Forall_app in Hpost as [Hpost Ho].
    rewrite Forall_singleton in Ho.
    replace (pre ++ op :: post ++ [o]) with ((pre ++ op :: post) ++ [o])
      by (by rewrite <- app_assoc).
    rewrite length_app. cbn [length].
    replace (length (pre ++ op :: post) + 1)%nat
      with (S (length (pre ++ op :: post))) by lia.
    rewrite undo_scan_snoc. rewrite decide_True by done. by apply IH.
Qed.

Lemma undo_scan_all_undone ops undone :
  Forall (λ o, op_id o ∈ undone) ops →
  undo_scan ops undone (length ops) = None.
Proof.
  intros Hall. pose proof (undo_scan_spec ops undone) as Hs.
  destruct (undo_scan ops undone (length ops)) as [i|]; [|done].
  destruct Hs as (pre & op & post & -> & <- & Hni & _).
  apply Forall_app in Hall as [_ Hall]. by inversion Hall.
Qed.

(** [undo()] touches the undone set only. *)
Lemma undo_operations st : operations (undo st).1 = operations st.
Proof. unfold undo. by destruct undo_scan. Qed.

Lemma undo_counter st : operationCounter (undo st).1 = operationCounter st.
Proof. unfold undo. by destruct undo_scan. Qed.

Lemma undo_found st pre op post :
  operations st = pre ++ op :: post →
  op_id op ∉ undoneOperations st →
  Forall (λ o, op_id o ∈ undoneOperations st) post →
  undo st =
    ({| operations := operations st;
        operationCounter := operationCounter st;
        undoneOperations := {[op_id op]} ∪ undoneOperations st |},
     Some (Undo (op_id op))).
Proof.
  intros Hops Hop Hpost. unfold undo. rewrite Hops.
  rewrite undo_scan_last_visible by done. by rewrite <- Hops.
Qed.

Lemma undo_found_at ops n undone pre op post :
  ops = pre ++ op :: post →
  op_id op ∉ undone →
  Forall (λ o, op_id o ∈ undone) post →
  undo (mkState ops n undone) =
    (mkState ops n ({[op_id op]} ∪ undone), Some (Undo (op_id op))).
Proof. intros. by apply (undo_found (mkState ops n undone) pre op post). Qed.

Lemma undo_none st :
  Forall (λ o, op_id o ∈ undoneOperations st) (operations st) →
  undo st = (st, None).
Proof. intros H. unfold undo. by rewrite undo_scan_all_undone. Qed.

Lemma wf_undo st : wf st → wf (undo st).1.
Proof.
  intros (Hids & Hc & Hsub). unfold undo.
  pose proof (undo_scan_spec (operations st) (undoneOperations st)) as Hs.
  destruct undo_scan as [i|]; [|done].
  destruct Hs as (pre & op & post & Hops & <- & _ & _).
  repeat split; [done..|]. cbn. unfold ids in *. cbn. intros j Hj.
  apply elem_of_union in Hj as [Hj|Hj]; [|by apply Hsub].
  apply elem_of_singleton in Hj as ->. rewrite Hops.
  apply list_elem_of_fmap. exists op. split; [done|].
  apply elem_of_app. right. apply elem_of_cons. by left.
Qed.

(** *** The forward scan of [redo()] *)

Lemma redo_from_cons undone op ops a :
  redo_from undone (op :: ops) a =
  redo_from undone ops
    (if bool_decide (op_id op ∈ undone) && (op_id op >? a)%Z
     then op_id op else a).
Proof. done. Qed.

(** The loop returns the largest of its start value and the undone ids
    that occur in the history. *)
Lemma redo_from_spec undone ops a :
  a ≤ redo_from undone ops a
  ∧ (redo_from undone ops a = a
     ∨ (redo_from undone ops a ∈ undone
        ∧ redo_from undone ops a ∈ op_id <$> ops))
  ∧ (∀ o, o ∈ ops → op_id o ∈ undone → op_id o ≤ redo_from undone ops a).
Proof.
  revert a. induction ops as [|op ops IH]; intros a.
  - cbn. split; [lia|]. split; [by left|]. intros o Ho. by inversion Ho.
  - rewrite redo_from_cons.
    set (b := if bool_decide (op_id op ∈ undone) && (op_id op >? a)%Z
              then op_id op else a).
    destruct (IH b) as (Hle & Hcase & Hmax).
    assert (a ≤ b) as Hab.
    { subst b. destruct (bool_decide _ && _) eqn:E; [|lia].
      apply andb_true_iff in E as [_ E]. lia. }
    assert (b = a ∨ (b = op_id op ∧ op_id op ∈ undone)) as Hb.
    { subst b. destruct (bool_decide _ && _) eqn:E; [|by left].
      apply andb_true_iff in E as [E _]. apply bool_decide_eq_true in E.
      by right. }
    assert (op_id op ∈ undone → op_id op ≤ b) as Hop.
    { intros Hin. subst b. rewrite bool_decide_eq_true_2 by done. cbn.
      destruct (op_id op >? a)%Z eqn:E; lia. }
    split; [lia|]. split.
    + destruct Hcase as [Hr|[Hr1 Hr2]].
      * destruct Hb as [Hb|[Hb Hin]]; [left; congruence|].
        right. rewrite Hr, Hb. split; [done|]. cbn. apply elem_of_cons.
        by left.
      * right. split; [done|]. cbn. apply elem_of_cons. by right.
    + intros o Ho Hin. apply elem_of_cons in Ho as [->|Ho].
      * specialize (Hop Hin). lia.
      * by apply Hmax.
Qed.

Lemma wf_ids_nonneg st i : wf st → i ∈ ids st → 0 ≤ i.
Proof.
  intros (Hids & _ & _) Hi. rewrite Hids in Hi.
  apply elem_of_seqZ in Hi. lia.
Qed.

(** On a well-formed log, [redo()] returns [null] exactly when nothing
    is undone, and otherwise removes the largest undone id. *)
Lemma redo_spec st :
  wf st →
  (undoneOperations st = ∅ ∧ redo st = (st, None))
  ∨ (∃ m, m ∈ undoneOperations st
          ∧ (∀ i, i ∈ undoneOperations st → i ≤ m)
          ∧ redo st =
              ({| operations := operations st;
                  operationCounter := operationCounter st;
                  undoneOperations := undoneOperations st ∖ {[m]} |},
               Some (Redo m))).
Proof.
  intros Hwf. unfold redo, redo_scan.
  destruct (redo_from_spec (undoneOperations st) (operations st) (-1))
    as (Hle & Hcase & Hmax).
  set (r := redo_from (undoneOperations st) (operations st) (-1)) in *.
  assert (∀ i, i ∈ undoneOperations st → i ≤ r) as Hub.
  { intros i Hi. destruct Hwf as (_ & _ & Hsub).
    specialize (Hsub i Hi). unfold ids in Hsub.
    apply list_elem_of_fmap in Hsub as (o & -> & Ho). by apply Hmax. }
  case_bool_decide as Hr.
  - right. exists r. destruct Hcase as [?|[Hin _]]; [done|]. by repeat split.
  - left. split; [|done]. apply set_eq. intros i. split; [|set_solver].
    intros Hi. pose proof (Hub i Hi).
    assert (0 ≤ i); [|lia].
    apply (wf_ids_nonneg st); [done|]. by apply Hwf.
Qed.

Lemma redo_operations st : operations (redo st).1 = operations st.
Proof. unfold redo. by case_bool_decide. Qed.

Lemma redo_counter st : operationCounter (redo st).1 = operationCounter st.
Proof. unfold redo. by case_bool_decide. Qed.

Lemma redo_undone_subseteq st i :
  i ∈ undoneOperations (redo st).1 → i ∈ undoneOperations st.
Proof.
  unfold redo. case_bool_decide; cbn; [|done].
  intros Hi. by apply elem_of_difference in Hi as [Hi _].
Qed.

Lemma wf_redo st : wf st → wf (redo st).1.
Proof.
  intros (Hids & Hc & Hsub). unfold wf, ids.
  rewrite redo_operations, redo_counter. repeat split; [done..|].
  intros i Hi. by apply Hsub, redo_undone_subseteq.
Qed.

(** *** Sequences of calls *)

Lemma wf_exec c st : wf st → wf (exec c st).
Proof.
  destruct c; cbn [exec];
    auto using wf_addOperation, wf_clear, wf_undo, wf_redo.
Qed.

Lemma run_snoc cs c : run (cs ++ [c]) = exec c (run cs).
Proof. unfold run. by rewrite fold_left_app. Qed.

Lemma wf_run cs : wf (run cs).
Proof.
  induction cs as [|c cs IH] using rev_ind; [apply wf_new|].
  rewrite run_snoc. by apply wf_exec.
Qed.

End LogLemmas.

Section LogTheorems.
Import DrawingState.

Implicit Types (st : state) (ops : list Operation) (undone : gset Z).

Lemma getActiveOperations_none_undone st :
  undoneOperations st = ∅ → getActiveOperations st = operations st.
Proof.
  intros He. unfold getActiveOperations. rewrite He.
  induction (operations st) as [|op ops IH]; [done|].
  rewrite filter_cons_True by set_solver. by rewrite IH.
Qed.

(** C1.  Appending resurrects tombstones.  For every log state,
    [addOperation] and [clear] push the new operation at the end of the
    history and leave the undone set empty, so that every stored
    operation, whether it was undone before or not, is visible and
    [getActiveOperations] is the whole history.  In particular, from
    the log of two appended operations A (id 0) and B (id 1), [undo()]
    tombstones id 1, and appending C then gives the history [A, B, C]
    with ids 0, 1, 2, an empty undone set and all three visible. *)
Theorem append_resurrects_tombstones :
  (∀ st now operation,
     let st' := (addOperation now operation st).1 in
     undoneOperations st' = ∅
     ∧ operations st' = operations st ++ [(addOperation now operation st).2]
     ∧ Forall (visible st') (operations st')
     ∧ getActiveOperations st' = operations st')
  ∧ (∀ st now,
       let st' := (clear now st).1 in
       undoneOperations st' = ∅
       ∧ operations st' = operations st ++ [(clear now st).2]
       ∧ Forall (visible st') (operations st')
       ∧ getActiveOperations st' = operations st')
  ∧ (∀ a b c t0 t1 t2,
       let s2 := run [CallAdd t0 a; CallAdd t1 b] in
       let s3 := (addOperation t2 c (undo s2).1).1 in
       (undo s2).2 = Some (Undo 1)
       ∧ undoneOperations (undo s2).1 = {[1]}
       ∧ operations s3 =
           [mkOperation a 0 t0; mkOperation b 1 t1; mkOperation c 2 t2]
       ∧ undoneOperations s3 = ∅
       ∧ Forall (visible s3) (operations s3)
       ∧ getActiveOperations s3 = operations s3).
Proof.
  assert (∀ st, undoneOperations st = ∅ → Forall (visible st) (operations st))
    as Hvis.
  { intros st He. apply Forall_forall. intros op _. unfold visible.
    rewrite He. set_solver. }
  split; [|split].
  - intros st now operation st'. subst st'.
    split; [done|]. split; [done|].
    split; [by apply Hvis | by apply getActiveOperations_none_undone].
  - intros st now st'. subst st'.
    split; [done|]. split; [done|].
    split; [by apply Hvis | by apply getActiveOperations_none_undone].
  - intros a b c t0 t1 t2 s2 s3.
    assert (undo s2 =
              ({| operations := operations s2;
                  operationCounter := operationCounter s2;
                  undoneOperations := {[1]} ∪ undoneOperations s2 |},
               Some (Undo 1))) as Hu.
    { apply (undo_found s2 [mkOperation a 0 t0] (mkOperation b 1 t1) []);
        [done | cbn; set_solver | constructor]. }
    subst s3. rewrite Hu. cbn [fst snd].
    split; [done|]. split; [cbn; set_solver|]. split; [done|].
    split; [done|].
    split; [by apply Hvis | by apply getActiveOperations_none_undone].
Qed.

(** C2.  [undo()] picks the latest visible operation.  For every log
    state, if [undo()] returns an id then the history splits around an
    operation with that id which is not undone and after which every
    operation is undone, and the call adds exactly that id to the
    undone set, leaving the history and the counter as they were; it
    returns [null], changing nothing, exactly when the history is empty
    or every stored id is already undone.  On a log with ids [0, 1, 2]
    and nothing undone, four successive calls return 2, 1, 0 and
    [null]. *)
Theorem undo_picks_latest_visible :
  (∀ st,
     match (undo st).2 with
     | Some r =>
         ∃ pre op post,
           r = Undo (op_id op)
           ∧ operations st = pre ++ op :: post
           ∧ (op_id op ∉ undoneOperations st)
           ∧ Forall (λ o, op_id o ∈ undoneOperations st) post
           ∧ (undo st).1 =
               {| operations := operations st;
                  operationCounter := operationCounter st;
                  undoneOperations :=
                    {[op_id op]} ∪ undoneOperations st |}
     | None => (undo st).1 = st
     end)
  ∧ (∀ st,
       (undo st).2 = None ↔
       operations st = []
       ∨ Forall (λ o, op_id o ∈ undoneOperations st) (operations st))
  ∧ (∀ st,
       ids st = [0; 1; 2] → undoneOperations st = ∅ →
       let s1 := (undo st).1 in
       let s2 := (undo s1).1 in
       let s3 := (undo s2).1 in
       (undo st).2 = Some (Undo 2)
       ∧ (undo s1).2 = Some (Undo 1)
       ∧ (undo s2).2 = Some (Undo 0)
       ∧ (undo s3).2 = None).
Proof.
  split; [|split].
  - intros st. unfold undo.
    pose proof (undo_scan_spec (operations st) (undoneOperations st)) as Hs.
    destruct undo_scan as [i|]; [|done].
    destruct Hs as (pre & op & post & Hops & <- & Hni & Hpost). cbn.
    by exists pre, op, post.
  - intros st. split.
    + intros Hn. right. unfold undo in Hn.
      pose proof (undo_scan_spec (operations st) (undoneOperations st)) as Hs.
      by destruct undo_scan.
    + intros [He|Hall].
      * rewrite undo_none; [done|]. rewrite He. constructor.
      * by rewrite undo_none.
  - intros st Hids Hu s1 s2 s3. unfold ids in Hids.
    destruct (operations st) as [|o0 [|o1 [|o2 [|]]]] eqn:Hops;
      try discriminate.
    injection Hids as Hid0 Hid1 Hid2.
    assert (undo st =
              ({| operations := [o0; o1; o2];
                  operationCounter := operationCounter st;
                  undoneOperations := {[2]} ∪ ∅ |},
               Some (Undo 2))) as E1.
    { rewrite <- Hid2, <- Hu, <- Hops.
      apply (undo_found st [o0; o1] o2 []);
        [done | rewrite Hu; apply not_elem_of_empty | constructor]. }
    assert (undo s1 =
              ({| operations := [o0; o1; o2];
                  operationCounter := operationCounter st;
                  undoneOperations := {[1]} ∪ ({[2]} ∪ ∅) |},
               Some (Undo 1))) as E2.
    { subst s1. rewrite E1. cbn [fst]. rewrite <- Hid1.
      apply (undo_found_at _ _ _ [o0] o1 [o2]); [done | |].
      - rewrite Hid1. compute_done.
      - repeat constructor. rewrite Hid2. compute_done. }
    assert (undo s2 =
              ({| operations := [o0; o1; o2];
                  operationCounter := operationCounter st;
                  undoneOperations := {[0]} ∪ ({[1]} ∪ ({[2]} ∪ ∅)) |},
               Some (Undo 0))) as E3.
    { subst s2. rewrite E2. cbn [fst]. rewrite <- Hid0.
      apply (undo_found_at _ _ _ [] o0 [o1; o2]); [done | |].
      - rewrite Hid0. compute_done.
      - repeat constructor; rewrite ?Hid1, ?Hid2; compute_done. }
    split; [by rewrite E1|]. split; [by rewrite E2|].
    split; [by rewrite E3|].
    subst s3. rewrite E3. cbn [fst]. rewrite undo_none; [done|]. cbn.
    repeat constructor; rewrite ?Hid0, ?Hid1, ?Hid2; compute_done.
Qed.

(** The premises of the example of C2 hold of the log made by three
    appends, and the theorem gives the four results there. *)
Lemma undo_picks_latest_visible_witness :
  let st := run [CallAdd 10 ∅; CallClear 11; CallAdd 12 ∅] in
  ids st = [0; 1; 2] ∧ undoneOperations st = ∅
  ∧ (undo st).2 = Some (Undo 2)
  ∧ (undo (undo st).1).2 = Some (Undo 1)
  ∧ (undo (undo (undo st).1).1).2 = Some (Undo 0)
  ∧ (undo (undo (undo (undo st).1).1).1).2 = None.
Proof.
  intros st.
  assert (ids st = [0; 1; 2]) as Hids by reflexivity.
  assert (undoneOperations st = ∅) as Hu by reflexivity.
  split; [exact Hids|]. split; [exact Hu|].
  exact (proj2 (proj2 undo_picks_latest_visible) st Hids Hu).
Defined.

(** On a well-formed log whose undone set has [m] as its largest
    element, [redo()] returns [m] and removes it. *)
Lemma redo_max st m :
  wf st →
  m ∈ undoneOperations st →
  (∀ i, i ∈ undoneOperations st → i ≤ m) →
  redo st =
    ({| operations := operations st;
        operationCounter := operationCounter st;
        undoneOperations := undoneOperations st ∖ {[m]} |},
     Some (Redo m)).
Proof.
  intros Hwf Hm Hmax.
  destruct (redo_spec st Hwf) as [[He _]|(m' & Hm' & Hmax' & ->)].
  - rewrite He in Hm. by apply not_elem_of_empty in Hm.
  - pose proof (Hmax m' Hm'). pose proof (Hmax' m Hm).
    by replace m' with m by lia.
Qed.

(** C3.  [redo()] picks the largest tombstoned id.  In every log state
    (the state after any sequence of calls on a fresh log), if [redo()]
    returns an id then that id is in the undone set and no undone id is
    larger, and the call removes exactly that id, leaving the history
    and the counter as they were; it returns [null], changing nothing,
    exactly when the undone set is empty.  When the undone set is
    {0, 1, 2}, four successive calls return 2, 1, 0 and [null]. *)
Theorem redo_picks_max_tombstoned :
  (∀ cs,
     let st := run cs in
     match (redo st).2 with
     | Some r =>
         ∃ m, r = Redo m
              ∧ m ∈ undoneOperations st
              ∧ (∀ i, i ∈ undoneOperations st → i ≤ m)
              ∧ (redo st).1 =
                  {| operations := operations st;
                     operationCounter := operationCounter st;
                     undoneOperations := undoneOperations st ∖ {[m]} |}
     | None => undoneOperations st = ∅ ∧ (redo st).1 = st
     end)
  ∧ (∀ cs, (redo (run cs)).2 = None ↔ undoneOperations (run cs) = ∅)
  ∧ (∀ cs,
       undoneOperations (run cs) = {[0; 1; 2]} →
       let s1 := (redo (run cs)).1 in
       let s2 := (redo s1).1 in
       let s3 := (redo s2).1 in
       (redo (run cs)).2 = Some (Redo 2)
       ∧ (redo s1).2 = Some (Redo 1)
       ∧ (redo s2).2 = Some (Redo 0)
       ∧ (redo s3).2 = None
       ∧ undoneOperations s3 = ∅).
Proof.
  split; [|split].
  - intros cs st.
    destruct (redo_spec st (wf_run cs)) as [[He ->]|(m & Hm & Hmax & ->)];
      [done|]. cbn. by exists m.
  - intros cs.
    destruct (redo_spec (run cs) (wf_run cs))
      as [[He ->]|(m & Hm & Hmax & ->)]; [done|]. cbn.
    split; [done|]. intros He. rewrite He in Hm.
    by apply not_elem_of_empty in Hm.
  - intros cs Hu s1 s2 s3.
    pose proof (wf_run cs) as Hwf0.
    assert (redo (run cs) =
              ({| operations := operations (run cs);
                  operationCounter := operationCounter (run cs);
                  undoneOperations := {[0; 1; 2]} ∖ {[2]} |},
               Some (Redo 2))) as E1.
    { rewrite <- Hu. apply redo_max; [done|..]; rewrite Hu.
      - compute_done.
      - intros i Hi. set_unfold. lia. }
    assert (wf s1) as Hwf1 by (by apply wf_redo).
    assert (redo s1 =
              ({| operations := operations s1;
                  operationCounter := operationCounter s1;
                  undoneOperations := undoneOperations s1 ∖ {[1]} |},
               Some (Redo 1))) as E2.
    { apply redo_max; [done|..]; subst s1; rewrite E1; cbn.
      - compute_done.
      - intros i Hi. set_unfold. lia. }
    assert (wf s2) as Hwf2 by (by apply wf_redo).
    assert (undoneOperations s2 = {[0]}) as Hu2.
    { subst s2. rewrite E2. cbn. subst s1. rewrite E1. cbn.
      apply set_eq. intros i. set_unfold. lia. }
    assert (redo s2 =
              ({| operations := operations s2;
                  operationCounter := operationCounter s2;
                  undoneOperations := undoneOperations s2 ∖ {[0]} |},
               Some (Redo 0))) as E3.
    { apply redo_max; [done|..]; rewrite Hu2.
      - compute_done.
      - intros i Hi. set_unfold. lia. }
    assert (wf s3) as Hwf3 by (by apply wf_redo).
    assert (undoneOperations s3 = ∅) as Hu3.
    { subst s3. rewrite E3. cbn. rewrite Hu2.
      apply set_eq. intros i. set_unfold. lia. }
    split; [by rewrite E1|]. split; [by rewrite E2|].
    split; [by rewrite E3|]. split; [|done].
    destruct (redo_spec s3 Hwf3) as [[_ ->]|(m & Hm & _)]; [done|].
    rewrite Hu3 in Hm. by apply not_elem_of_empty in Hm.
Qed.

(** The premise of the example of C3 holds after three appends and
    three undos, and the theorem gives the four results there. *)
Lemma redo_picks_max_tombstoned_witness :
  let cs := [CallAdd 10 ∅; CallAdd 11 ∅; CallClear 12;
             CallUndo; CallUndo; CallUndo] in
  undoneOperations (run cs) = {[0; 1; 2]}
  ∧ (redo (run cs)).2 = Some (Redo 2)
  ∧ (redo (redo (run cs)).1).2 = Some (Redo 1)
  ∧ (redo (redo (redo (run cs)).1).1).2 = Some (Redo 0)
  ∧ (redo (redo (redo (redo (run cs)).1).1).1).2 = None
  ∧ undoneOperations (redo (redo (redo (run cs)).1).1).1 = ∅.
Proof.
  intros cs.
  assert (undoneOperations (run cs) = {[0; 1; 2]}) as Hu
    by (vm_compute; reflexivity).
  split; [exact Hu|].
  exact (proj2 (proj2 redo_picks_max_tombstoned) cs Hu).
Defined.

(** C7.  After every sequence of [addOperation], [clear], [undo] and
    [redo] calls on a fresh log, every id in the undone set is the id
    of an operation in the history; and, in any state, [undo()] and
    [redo()] return a state with the same history (same operations, in
    the same order) and the same counter, so that they change
    membership in the undone set only. *)
Theorem tombstones_within_log :
  (∀ cs, undoneOperations (run cs) ⊆ list_to_set (ids (run cs)))
  ∧ (∀ st,
       operations (undo st).1 = operations st
       ∧ operationCounter (undo st).1 = operationCounter st)
  ∧ (∀ st,
       operations (redo st).1 = operations st
       ∧ operationCounter (redo st).1 = operationCounter st).
Proof.
  split; [|split].
  - intros cs i Hi. apply elem_of_list_to_set.
    by apply (wf_run cs).
  - intros st. split; [apply undo_operations | apply undo_counter].
  - intros st. split; [apply redo_operations | apply redo_counter].
Qed.

End LogTheorems.

(** ** The room registry and the gateway *)

Section RegistryLemmas.
Import RoomManager.

Implicit Types (m : RoomManager.state) (room : Room) (r : string).

Lemma getRoom_lookup now r m :
  rooms (getRoom now r m).1 !! r = Some (getRoom now r m).2.
Proof.
  unfold getRoom. destruct (rooms m !! r) eqn:E; cbn; [done|].
  apply lookup_insert_eq.
Qed.

Lemma getRoom_lookup_ne now r r' m :
  r ≠ r' → rooms (getRoom now r m).1 !! r' = rooms m !! r'.
Proof.
  intros Hne. unfold getRoom. destruct (rooms m !! r) eqn:E; cbn; [done|].
  by apply lookup_insert_ne.
Qed.

Lemma getRoom_drawingState now r m :
  drawingState (getRoom now r m).2 = logOf r m.
Proof. unfold getRoom, logOf. by destruct (rooms m !! r). Qed.

(** The room [getRoom] returns is the stored one, or a fresh room with
    no users and no colours in use. *)
Lemma getRoom_room now r m :
  (getRoom now r m).2 = default (newRoom now r) (rooms m !! r).
Proof. unfold getRoom. by destruct (rooms m !! r). Qed.

Lemma logOf_getRoom now r r' m : logOf r' (getRoom now r m).1 = logOf r' m.
Proof.
  unfold logOf. destruct (decide (r = r')) as [<-|Hne].
  - rewrite getRoom_lookup, getRoom_room. by destruct (rooms m !! r).
  - by rewrite getRoom_lookup_ne.
Qed.

Lemma logOf_putRoom r r' room m :
  logOf r' (putRoom r room m) =
  if decide (r = r') then drawingState room else logOf r' m.
Proof.
  unfold logOf, putRoom. cbn. case_decide as Hr.
  - subst. by rewrite lookup_insert_eq.
  - by rewrite lookup_insert_ne.
Qed.

Lemma logOf_addUser now r sid name r' m :
  logOf r' (addUser now r sid name m).1 = logOf r' m.
Proof.
  unfold addUser. destruct (getRoom now r m) as [m1 room] eqn:E. cbn.
  rewrite logOf_putRoom. cbn.
  replace m1 with (getRoom now r m).1 by (by rewrite E).
  replace room with (getRoom now r m).2 by (by rewrite E).
  rewrite logOf_getRoom, getRoom_drawingState.
  case_decide; by subst.
Qed.

Lemma logOf_removeUser r sid r' m :
  logOf r' (removeUser r sid m) = logOf r' m.
Proof.
  unfold removeUser, logOf. destruct (rooms m !! r) as [room|] eqn:E; [|done].
  cbn. destruct (decide (r = r')) as [<-|Hne].
  - rewrite lookup_insert_eq, E. by destruct (JsMap.get sid (users room)).
  - by rewrite lookup_insert_ne.
Qed.

Lemma logOf_updateUserCursor r sid cursor r' m :
  logOf r' (updateUserCursor r sid cursor m) = logOf r' m.
Proof.
  unfold updateUserCursor.
  destruct (rooms m !! r) as [room|] eqn:E; [|done].
  destruct (JsMap.get sid (users room)); [|done].
  rewrite logOf_putRoom. cbn. case_decide; [|done].
  subst. unfold logOf. by rewrite E.
Qed.

(** A clean-up leaves every log as it was or removes the room, whose
    id then denotes the empty log again. *)
Lemma logOf_cleanUp r r' m :
  logOf r' (cleanUp r m) = logOf r' m
  ∨ logOf r' (cleanUp r m) = DrawingState.new.
Proof.
  unfold cleanUp. destruct (rooms m !! r) as [room|] eqn:E; [|by left].
  destruct (JsMap.size (users room) =? 0)%nat; [|by left].
  unfold logOf. cbn. destruct (decide (r = r')) as [<-|Hne].
  - right. by rewrite lookup_delete_eq.
  - left. by rewrite lookup_delete_ne.
Qed.

Lemma logOf_fireTimer r' m :
  logOf r' (fireTimer m) = logOf r' m
  ∨ logOf r' (fireTimer m) = DrawingState.new.
Proof.
  unfold fireTimer. destruct (timers m) as [|r rest]; [by left|].
  apply (logOf_cleanUp r r' {| rooms := rooms m; timers := rest |}).
Qed.

End RegistryLemmas.

Section GatewayLemmas.
Import RoomManager Server.

Implicit Types (m : RoomManager.state) (c : Connection) (r : string).

Lemma getRoom_eq now r m m1 room :
  getRoom now r m = (m1, room) →
  drawingState room = logOf r m ∧ (∀ r', logOf r' m1 = logOf r' m).
Proof.
  intros E. split.
  - rewrite <- (getRoom_drawingState now). by rewrite E.
  - intros r'. rewrite <- (logOf_getRoom now r r' m). by rewrite E.
Qed.

Lemma putRoom_lookup r room m : rooms (putRoom r room m) !! r = Some room.
Proof. apply lookup_insert_eq. Qed.

(** The four log handlers have one shape: [getRoom], a method of the
    room's log, and the room written back.  After the handler is unfolded
    and its two calls named, the four facts of its specification follow
    in the same way. *)
Ltac log_handler_spec now c m :=
  let m1 := fresh "m1" in
  let room := fresh "room" in
  let E := fresh "E" in
  let Hlog := fresh "Hlog" in
  let Hother := fresh "Hother" in
  destruct (getRoom now (currentRoom c) m) as [m1 room] eqn:E;
  apply getRoom_eq in E as [Hlog Hother]; rewrite Hlog;
  cbv zeta;
  match goal with
  | |- context [DrawingState.undo ?l] => destruct (DrawingState.undo l)
  | |- context [DrawingState.redo ?l] => destruct (DrawingState.redo l)
  | |- _ => idtac
  end;
  cbn;
  split; [done|]; split; [done|]; split;
  [ eexists; split; [apply putRoom_lookup|done]
  | intros r Hr; rewrite logOf_putRoom, decide_False by done; apply Hother ].

(** Each of the four log handlers applies its log method to the log of
    the closure's [currentRoom], creating the room if it is missing,
    leaves the other rooms' logs alone and does not touch the closure
    variables. *)
Lemma onDrawStroke_spec now data c m :
  let log := logOf (currentRoom c) m in
  let res := DrawingState.addOperation now (strokeOperation c data) log in
  let '(c', m', out) := onDrawStroke now data c m in
  c' = c
  ∧ out = [(ToRoom (currentRoom c), DrawStroke res.2)]
  ∧ (∃ room, rooms m' !! currentRoom c = Some room
             ∧ drawingState room = res.1)
  ∧ (∀ r, r ≠ currentRoom c → logOf r m' = logOf r m).
Proof.
  intros log res. subst res log. unfold onDrawStroke. log_handler_spec now c m.
Qed.

Lemma onClearCanvas_spec now c m :
  let log := logOf (currentRoom c) m in
  let res := DrawingState.clear now log in
  let '(c', m', out) := onClearCanvas now c m in
  c' = c
  ∧ out = [(ToRoom (currentRoom c), ClearCanvas res.2)]
  ∧ (∃ room, rooms m' !! currentRoom c = Some room
             ∧ drawingState room = res.1)
  ∧ (∀ r, r ≠ currentRoom c → logOf r m' = logOf r m).
Proof.
  intros log res. subst res log. unfold onClearCanvas. log_handler_spec now c m.
Qed.

Lemma onUndo_spec now c m :
  let log := logOf (currentRoom c) m in
  let res := DrawingState.undo log in
  let '(c', m', out) := onUndo now c m in
  c' = c
  ∧ out = match res.2 with
          | Some u => [(ToRoom (currentRoom c), UndoEvent u)]
          | None => []
          end
  ∧ (∃ room, rooms m' !! currentRoom c = Some room
             ∧ drawingState room = res.1)
  ∧ (∀ r, r ≠ currentRoom c → logOf r m' = logOf r m).
Proof.
  intros log res. subst res log. unfold onUndo. log_handler_spec now c m.
Qed.

Lemma onRedo_spec now c m :
  let log := logOf (currentRoom c) m in
  let res := DrawingState.redo log in
  let '(c', m', out) := onRedo now c m in
  c' = c
  ∧ out = match res.2 with
          | Some u => [(ToRoom (currentRoom c), RedoEvent u)]
          | None => []
          end
  ∧ (∃ room, rooms m' !! currentRoom c = Some room
             ∧ drawingState room = res.1)
  ∧ (∀ r, r ≠ currentRoom c → logOf r m' = logOf r m).
Proof.
  intros log res. subst res log. unfold onRedo. log_handler_spec now c m.
Qed.

Lemma logOf_lookup r room m :
  rooms m !! r = Some room → logOf r m = drawingState room.
Proof. intros E. unfold logOf. by rewrite E. Qed.

Lemma logs_wf_new : logs_wf RoomManager.new.
Proof. intros r. apply wf_new. Qed.

(** A handler that satisfies the specification above with a method that
    preserves [wf] keeps every log well formed. *)
Lemma logs_wf_log_handler (eff : effect) c m (log' : DrawingState.state) :
  logs_wf m →
  wf log' →
  (∃ room, rooms eff.1.2 !! currentRoom c = Some room
           ∧ drawingState room = log') →
  (∀ r, r ≠ currentRoom c → logOf r eff.1.2 = logOf r m) →
  logs_wf eff.1.2.
Proof.
  intros Hwf Hlog' (room & Hroom & Hlog) Hother r.
  destruct (decide (r = currentRoom c)) as [->|Hne].
  - by rewrite (logOf_lookup _ _ _ Hroom), Hlog.
  - rewrite Hother by done. apply Hwf.
Qed.

Lemma logs_wf_handle now i c m :
  logs_wf m → logs_wf (handle now i c m).1.2.
Proof.
  intros Hwf. destruct i; cbn [handle].
  - unfold onJoinRoom.
    destruct (addUser _ _ _ _ _) as [m1 user] eqn:E1.
    destruct (getRoom _ _ m1) as [m2 room] eqn:E2. cbn. intros r.
    apply getRoom_eq in E2 as [_ ->].
    replace m1 with (addUser now (default "default" roomId) (socket_id c)
                       userName m).1 by (by rewrite E1).
    rewrite logOf_addUser. apply Hwf.
  - pose proof (onDrawStroke_spec now data c m) as H.
    destruct (onDrawStroke now data c m) as [[c' m'] out] eqn:E.
    destruct H as (_ & _ & Hroom & Hother).
    eapply (logs_wf_log_handler (c', m', out)); [done| |done..].
    apply wf_addOperation, Hwf.
  - intros r. cbn. rewrite logOf_updateUserCursor. apply Hwf.
  - pose proof (onUndo_spec now c m) as H.
    destruct (onUndo now c m) as [[c' m'] out] eqn:E.
    destruct H as (_ & _ & Hroom & Hother).
    eapply (logs_wf_log_handler (c', m', out)); [done| |done..].
    apply wf_undo, Hwf.
  - pose proof (onRedo_spec now c m) as H.
    destruct (onRedo now c m) as [[c' m'] out] eqn:E.
    destruct H as (_ & _ & Hroom & Hother).
    eapply (logs_wf_log_handler (c', m', out)); [done| |done..].
    apply wf_redo, Hwf.
  - pose proof (onClearCanvas_spec now c m) as H.
    destruct (onClearCanvas now c m) as [[c' m'] out] eqn:E.
    destruct H as (_ & _ & Hroom & Hother).
    eapply (logs_wf_log_handler (c', m', out)); [done| |done..].
    apply wf_clear, Hwf.
  - apply Hwf.
  - apply Hwf.
  - unfold onDisconnect. destruct (currentUser c); [|apply Hwf].
    destruct (String.eqb _ _); cbn; [apply Hwf|].
    intros r. rewrite logOf_removeUser. apply Hwf.
Qed.

Lemma logs_wf_step e s : logs_wf (manager s) → logs_wf (manager (step e s)).
Proof.
  intros Hwf. destruct e as [now sid i|]; cbn.
  - pose proof (logs_wf_handle now i (connectionOf sid s) (manager s) Hwf) as H.
    by destruct (handle now i (connectionOf sid s) (manager s)) as [[c' m'] out].
  - intros r. destruct (logOf_fireTimer r (manager s)) as [->| ->];
      [apply Hwf | apply wf_new].
Qed.

Lemma server_run_snoc es e : Server.run (es ++ [e]) = step e (Server.run es).
Proof. unfold Server.run. by rewrite fold_left_app. Qed.

Lemma logs_wf_run es : logs_wf (manager (Server.run es)).
Proof.
  induction es as [|e es IH] using rev_ind; [apply logs_wf_new|].
  rewrite server_run_snoc. by apply logs_wf_step.
Qed.

End GatewayLemmas.

Section GatewayTheorems.
Import RoomManager Server.

Implicit Types (m : RoomManager.state) (c : Connection) (r : string).

Lemma get_id op :
  DrawingState.get op "id" = VNum (inject_Z (DrawingState.op_id op)).
Proof.
  unfold DrawingState.get, DrawingState.object.
  by rewrite lookup_insert_ne, lookup_insert_eq.
Qed.

Lemma get_props op k :
  k ≠ "id" → k ≠ "timestamp" →
  DrawingState.get op k = default VUndefined (DrawingState.op_props op !! k).
Proof.
  intros H1 H2. unfold DrawingState.get, DrawingState.object.
  by rewrite !lookup_insert_ne.
Qed.

(** A property of the server's literal survives in the argument of
    [addOperation] only if the payload has no own property of that
    name. *)
Lemma strokeOperation_lookup c data k v :
  (<["userName" := nameOf (currentUser c)]>
     (<["userId" := VStr (socket_id c)]>
        ({[ "type" := VStr "stroke" ]} : gmap string value))) !! k = Some v →
  strokeOperation c data !! k = Some (default v (own_props data !! k)).
Proof.
  intros Hk. unfold strokeOperation, spread.
  destruct (own_props data !! k) as [w|] eqn:E; cbn.
  - by apply lookup_union_Some_l.
  - by rewrite lookup_union_r.
Qed.

Lemma strokeOperation_userId c data :
  strokeOperation c data !! "userId"
  = Some (default (VStr (socket_id c)) (own_props data !! "userId")).
Proof. by apply strokeOperation_lookup. Qed.

Lemma strokeOperation_userName c data :
  strokeOperation c data !! "userName"
  = Some (default (nameOf (currentUser c)) (own_props data !! "userName")).
Proof. by apply strokeOperation_lookup. Qed.

(** The log of a room as [k]-th operation has the operation of id [k]. *)
Lemma wf_lookup_id st (k : nat) op :
  wf st → DrawingState.operations st !! k = Some op →
  DrawingState.op_id op = Z.of_nat k.
Proof.
  intros (Hids & _ & _) Hk.
  assert (DrawingState.ids st !! k = Some (DrawingState.op_id op)) as Hi.
  { unfold DrawingState.ids. by rewrite list_lookup_fmap, Hk. }
  rewrite Hids in Hi. apply lookup_seqZ in Hi. lia.
Qed.

(** C4.  Ids are consecutive from 0 and come from the server's counter.
    After every sequence of calls on a fresh log, in which strokes and
    clears draw on the same counter, the ids of the stored operations
    are [0, 1, ..., n-1] in history order (the [k]-th stored operation
    has id [k]) and the counter is [n].  The id that [addOperation] and
    [clear] give is the counter's value, also read back through the
    [id] property and whatever [id] the argument carried, and the
    counter then moves up by one.  After every sequence of events of
    the gateway, the same holds of the log of every room. *)
Theorem ids_consecutive_from_zero :
  (∀ cs,
     let st := DrawingState.run cs in
     DrawingState.ids st
       = seqZ 0 (Z.of_nat (length (DrawingState.operations st)))
     ∧ DrawingState.operationCounter st
         = Z.of_nat (length (DrawingState.operations st))
     ∧ (∀ (k : nat) op, DrawingState.operations st !! k = Some op →
                        DrawingState.op_id op = Z.of_nat k))
  ∧ (∀ st now operation,
       let res := DrawingState.addOperation now operation st in
       DrawingState.op_id res.2 = DrawingState.operationCounter st
       ∧ DrawingState.get res.2 "id"
           = VNum (inject_Z (DrawingState.operationCounter st))
       ∧ DrawingState.operationCounter res.1
           = DrawingState.operationCounter st + 1)
  ∧ (∀ st now,
       let res := DrawingState.clear now st in
       DrawingState.op_id res.2 = DrawingState.operationCounter st
       ∧ DrawingState.operationCounter res.1
           = DrawingState.operationCounter st + 1)
  ∧ (∀ es r room,
       rooms (manager (Server.run es)) !! r = Some room →
       let st := drawingState room in
       DrawingState.ids st
         = seqZ 0 (Z.of_nat (length (DrawingState.operations st)))
       ∧ DrawingState.operationCounter st
           = Z.of_nat (length (DrawingState.operations st))
       ∧ (∀ (k : nat) op, DrawingState.operations st !! k = Some op →
                          DrawingState.op_id op = Z.of_nat k)).
Proof.
  split; [|split; [|split]].
  - intros cs st. pose proof (wf_run cs) as Hwf.
    split; [apply Hwf|]. split; [apply Hwf|].
    intros k op. by apply wf_lookup_id.
  - intros st now operation res. split; [done|]. split; [|done].
    apply get_id.
  - done.
  - intros es r room Hroom st.
    pose proof (logs_wf_run es r) as Hwf.
    rewrite (logOf_lookup _ _ _ Hroom) in Hwf. fold st in Hwf.
    split; [apply Hwf|]. split; [apply Hwf|].
    intros k op. by apply wf_lookup_id.
Qed.

(** The premises of C4 hold of the second operation of a log made by
    an append that carried an [id] of its own and a clear, and of
    room ['default'] after a stroke and a clear from two sockets. *)
Lemma ids_consecutive_from_zero_witness :
  let cs := [DrawingState.CallAdd 5 {[ "id" := VStr "mine" ]};
             DrawingState.CallClear 6] in
  let es := [Receive 1 "s1" (DrawStrokeIn (VObj [("id", VStr "mine")]));
             Receive 2 "s2" ClearCanvasIn] in
  let room := default (newRoom 0 "")
                (rooms (manager (Server.run es)) !! "default") in
  let second := DrawingState.mkOperation {[ "type" := VStr "clear" ]} 1 in
  DrawingState.operations (DrawingState.run cs) !! 1%nat = Some (second 6)
  ∧ DrawingState.op_id (second 6) = Z.of_nat 1
  ∧ rooms (manager (Server.run es)) !! "default" = Some room
  ∧ DrawingState.operations (drawingState room) !! 1%nat = Some (second 2)
  ∧ DrawingState.op_id (second 2) = Z.of_nat 1.
Proof.
  intros cs es room second.
  destruct ids_consecutive_from_zero as (Hlog & _ & _ & Hrooms).
  assert (DrawingState.operations (DrawingState.run cs) !! 1%nat
          = Some (second 6)) as Hk by reflexivity.
  assert (rooms (manager (Server.run es)) !! "default" = Some room)
    as Hroom by (vm_compute; reflexivity).
  assert (DrawingState.operations (drawingState room) !! 1%nat
          = Some (second 2)) as Hk' by (vm_compute; reflexivity).
  split; [exact Hk|].
  split; [exact (proj2 (proj2 (Hlog cs)) 1%nat (second 6) Hk)|].
  split; [exact Hroom|]. split; [exact Hk'|].
  exact (proj2 (proj2 (Hrooms es "default" room Hroom)) 1%nat (second 2) Hk').
Defined.

Lemma storedStroke_identity now data c m :
  DrawingState.get (storedStroke now data c m) "userId"
    = default (VStr (socket_id c)) (own_props data !! "userId")
  ∧ DrawingState.get (storedStroke now data c m) "userName"
      = default (nameOf (currentUser c)) (own_props data !! "userName").
Proof.
  unfold storedStroke. cbn [DrawingState.addOperation snd].
  rewrite !get_props by done. cbn [DrawingState.op_props].
  by rewrite strokeOperation_userId, strokeOperation_userName.
Qed.

(** When the payload has no [userId] and no [userName] property of its
    own, the stored stroke carries the socket's id and the name of the
    closure's user. *)
Lemma storedStroke_identity_untouched now data c m :
  own_props data !! "userId" = None →
  own_props data !! "userName" = None →
  DrawingState.get (storedStroke now data c m) "userId" = VStr (socket_id c)
  ∧ DrawingState.get (storedStroke now data c m) "userName"
      = nameOf (currentUser c).
Proof.
  intros H1 H2. destruct (storedStroke_identity now data c m) as [-> ->].
  by rewrite H1, H2.
Qed.

(** C5.  What identity a stored stroke carries.  The ['draw-stroke']
    handler stores and broadcasts one operation, at the end of the log
    of the closure's room; its [userId] is the payload's own [userId]
    property when the payload has one and the socket's id otherwise,
    and its [userName] is the payload's own [userName] property when
    the payload has one and the name of the closure's user otherwise:
    the spread of the payload is the last member of the object literal
    and replaces the two properties written before it.  So when socket
    [s1], registered as "alice", sends a stroke whose payload has
    [userId: "s2"] and [userName: "bob"], the stored operation is
    tagged "s2" and "bob", not "s1" and "alice". *)
Theorem stroke_identity_follows_payload :
  (∀ now data c m,
     let op := storedStroke now data c m in
     let '(_, m', out) := onDrawStroke now data c m in
     out = [(ToRoom (currentRoom c), DrawStroke op)]
     ∧ (∃ room,
          rooms m' !! currentRoom c = Some room
          ∧ DrawingState.operations (drawingState room)
              = DrawingState.operations (logOf (currentRoom c) m) ++ [op])
     ∧ DrawingState.get op "userId"
         = default (VStr (socket_id c)) (own_props data !! "userId")
     ∧ DrawingState.get op "userName"
         = default (nameOf (currentUser c)) (own_props data !! "userName"))
  ∧ (let payload :=
       VObj [("points", VArr []); ("color", VStr "#000000");
             ("userId", VStr "s2"); ("userName", VStr "bob")] in
     let s := Server.run [Receive 1 "s1" (JoinRoom (Some "r") (VStr "alice"));
                          Receive 2 "s1" (DrawStrokeIn payload)] in
     (nameOf ∘ currentUser <$> connections s !! "s1") = Some (VStr "alice")
     ∧ ∃ op,
         DrawingState.operations (logOf "r" (manager s)) = [op]
         ∧ DrawingState.get op "userId" = VStr "s2"
         ∧ DrawingState.get op "userName" = VStr "bob"
         ∧ DrawingState.get op "userId" ≠ VStr "s1"
         ∧ DrawingState.get op "userName" ≠ VStr "alice").
Proof.
  split.
  - intros now data c m op.
    pose proof (onDrawStroke_spec now data c m) as H.
    destruct (onDrawStroke now data c m) as [[c' m'] out].
    destruct H as (_ & -> & (room & Hroom & Hlog) & _).
    split; [done|]. split.
    + exists room. split; [done|]. by rewrite Hlog.
    + apply storedStroke_identity.
  - intros payload s. split; [by vm_compute|].
    eexists. split; [by vm_compute|].
    split; [by vm_compute|]. split; [by vm_compute|].
    split; vm_compute; discriminate.
Qed.

(** *** Intents sent before [join-room] *)

(** Only [join-room] assigns the closure variables. *)
Lemma handle_connection now i c m :
  (∀ roomId userName, i ≠ JoinRoom roomId userName) →
  (handle now i c m).1.1 = c.
Proof.
  intros Hi. destruct i; cbn [handle].
  - by destruct (Hi roomId userName).
  - pose proof (onDrawStroke_spec now data c m) as H.
    destruct (onDrawStroke now data c m) as [[c' m'] out]. by destruct H.
  - done.
  - pose proof (onUndo_spec now c m) as H.
    destruct (onUndo now c m) as [[c' m'] out]. by destruct H.
  - pose proof (onRedo_spec now c m) as H.
    destruct (onRedo now c m) as [[c' m'] out]. by destruct H.
  - pose proof (onClearCanvas_spec now c m) as H.
    destruct (onClearCanvas now c m) as [[c' m'] out]. by destruct H.
  - done.
  - done.
  - unfold onDisconnect. destruct (currentUser c); [|done].
    by destruct (String.eqb _ _).
Qed.

(** As long as a socket has not sent [join-room], its closure is the one
    [io.on('connection')] made: room ['default'], no user. *)
Lemma connection_before_join es sid :
  (∀ now roomId userName,
     Receive now sid (JoinRoom roomId userName) ∉ es) →
  connectionOf sid (Server.run es) = connect sid.
Proof.
  induction es as [|e es IH] using rev_ind; intros Hnever; [done|].
  assert (connectionOf sid (Server.run es) = connect sid) as Hc.
  { apply IH. intros now roomId userName Hin.
    apply (Hnever now roomId userName), elem_of_app. by left. }
  rewrite server_run_snoc. destruct e as [now sid' i|]; [|done].
  cbn [step].
  destruct (handle now i _ (manager (Server.run es))) as [[c' m'] out] eqn:E.
  unfold connectionOf at 1. cbn [connections].
  destruct (decide (sid' = sid)) as [->|Hne].
  - assert (∀ roomId userName, i ≠ JoinRoom roomId userName) as Hi.
    { intros roomId userName ->.
      apply (Hnever now roomId userName), elem_of_app. right.
      apply elem_of_cons. by left. }
    pose proof (handle_connection now i (connectionOf sid (Server.run es))
                  (manager (Server.run es)) Hi) as Hh.
    rewrite E, Hc in Hh. cbn in Hh. subst c'.
    by destruct i; rewrite ?lookup_insert_eq, ?lookup_delete_eq.
  - by destruct i; rewrite ?lookup_insert_ne, ?lookup_delete_ne.
Qed.

(** C10.  A connection that has not sent [join-room] has
    [currentRoom = 'default'] and no user (the closure [connect sid];
    see [connection_before_join]).  Its ['draw-stroke'],
    ['undo'], ['redo'] and ['clear-canvas'] are carried out on the log
    of room ['default'], which exists afterwards whether or not it
    existed before.  The stroke stored for it has as [userName] the
    payload's own [userName] property when the payload has one, and
    [undefined] only otherwise: a first message with payload
    [{userName: "mallory"}] leaves in room ['default'] one operation
    whose [userName] is "mallory". *)
Theorem prejoin_intents_use_default_room :
  (∀ now data sid m,
     let c := connect sid in
     let res := DrawingState.addOperation now (strokeOperation c data)
                  (logOf "default" m) in
     let '(c', m', out) := onDrawStroke now data c m in
     c' = c
     ∧ out = [(ToRoom "default", DrawStroke res.2)]
     ∧ (∃ room, rooms m' !! "default" = Some room
                ∧ drawingState room = res.1)
     ∧ DrawingState.get res.2 "userName"
         = default VUndefined (own_props data !! "userName"))
  ∧ (∀ now sid m,
       let c := connect sid in
       let '(c', m', _) := onUndo now c m in
       c' = c
       ∧ ∃ room, rooms m' !! "default" = Some room
                 ∧ drawingState room
                     = (DrawingState.undo (logOf "default" m)).1)
  ∧ (∀ now sid m,
       let c := connect sid in
       let '(c', m', _) := onRedo now c m in
       c' = c
       ∧ ∃ room, rooms m' !! "default" = Some room
                 ∧ drawingState room
                     = (DrawingState.redo (logOf "default" m)).1)
  ∧ (∀ now sid m,
       let c := connect sid in
       let '(c', m', _) := onClearCanvas now c m in
       c' = c
       ∧ ∃ room, rooms m' !! "default" = Some room
                 ∧ drawingState room
                     = (DrawingState.clear now (logOf "default" m)).1)
  ∧ (let s := Server.run
                [Receive 1 "s1"
                   (DrawStrokeIn (VObj [("userName", VStr "mallory")]))] in
     rooms (manager Server.init) !! "default" = None
     ∧ ∃ room op,
         rooms (manager s) !! "default" = Some room
         ∧ DrawingState.operations (drawingState room) = [op]
         ∧ DrawingState.get op "userName" = VStr "mallory"
         ∧ DrawingState.get op "userName" ≠ VUndefined).
Proof.
  split; [|split; [|split; [|split]]].
  - intros now data sid m c res.
    pose proof (onDrawStroke_spec now data c m) as H.
    destruct (onDrawStroke now data c m) as [[c' m'] out].
    destruct H as (-> & -> & Hroom & _).
    split; [done|]. split; [done|]. split; [done|].
    apply (storedStroke_identity now data c m).
  - intros now sid m c. pose proof (onUndo_spec now c m) as H.
    destruct (onUndo now c m) as [[c' m'] out].
    by destruct H as (-> & _ & Hroom & _).
  - intros now sid m c. pose proof (onRedo_spec now c m) as H.
    destruct (onRedo now c m) as [[c' m'] out].
    by destruct H as (-> & _ & Hroom & _).
  - intros now sid m c. pose proof (onClearCanvas_spec now c m) as H.
    destruct (onClearCanvas now c m) as [[c' m'] out].
    by destruct H as (-> & _ & Hroom & _).
  - intros s. split; [done|]. eexists _, _.
    split; [by vm_compute|]. split; [by vm_compute|].
    split; [by vm_compute|]. vm_compute. discriminate.
Qed.

(** *** Undo and redo with nothing eligible *)

Lemma redo_nothing_undone st :
  DrawingState.undoneOperations st = ∅ → DrawingState.redo st = (st, None).
Proof.
  intros He. unfold DrawingState.redo, DrawingState.redo_scan.
  destruct (redo_from_spec (DrawingState.undoneOperations st)
              (DrawingState.operations st) (-1)) as (_ & [->|[Hin _]] & _).
  - done.
  - rewrite He in Hin. by apply not_elem_of_empty in Hin.
Qed.

(** C8.  Undo and redo with nothing eligible are silent.  When the
    history is empty or every stored id is undone, [undo()] returns
    [null] and the state it leaves is the state it got; so does
    [redo()] when the undone set is empty.  In those cases the
    ['undo'] and ['redo'] handlers emit nothing, to the caller or to
    anybody else, keep the closure variables, and leave the log of
    every room as it was; a turn of the event loop for such a message
    adds nothing to what the process has emitted. *)
Theorem noop_undo_redo_silent :
  (∀ st,
     DrawingState.operations st = []
     ∨ Forall (λ o, DrawingState.op_id o ∈ DrawingState.undoneOperations st)
         (DrawingState.operations st) →
     DrawingState.undo st = (st, None))
  ∧ (∀ st,
       DrawingState.undoneOperations st = ∅ →
       DrawingState.redo st = (st, None))
  ∧ (∀ now c m,
       let log := logOf (currentRoom c) m in
       DrawingState.operations log = []
       ∨ Forall (λ o, DrawingState.op_id o
                      ∈ DrawingState.undoneOperations log)
           (DrawingState.operations log) →
       let '(c', m', out) := onUndo now c m in
       c' = c ∧ out = [] ∧ ∀ r, logOf r m' = logOf r m)
  ∧ (∀ now c m,
       DrawingState.undoneOperations (logOf (currentRoom c) m) = ∅ →
       let '(c', m', out) := onRedo now c m in
       c' = c ∧ out = [] ∧ ∀ r, logOf r m' = logOf r m)
  ∧ (∀ now sid s,
       let log := logOf (currentRoom (connectionOf sid s)) (manager s) in
       (DrawingState.operations log = []
        ∨ Forall (λ o, DrawingState.op_id o
                       ∈ DrawingState.undoneOperations log)
            (DrawingState.operations log) →
        emitted (step (Receive now sid UndoIn) s) = emitted s)
       ∧ (DrawingState.undoneOperations log = ∅ →
          emitted (step (Receive now sid RedoIn) s) = emitted s)).
Proof.
  assert (∀ st,
            DrawingState.operations st = []
            ∨ Forall (λ o, DrawingState.op_id o
                           ∈ DrawingState.undoneOperations st)
                (DrawingState.operations st) →
            DrawingState.undo st = (st, None)) as Hundo.
  { intros st [He|Hall]; apply undo_none; [|done].
    rewrite He. constructor. }
  assert (∀ now c m,
            let log := logOf (currentRoom c) m in
            DrawingState.operations log = []
            ∨ Forall (λ o, DrawingState.op_id o
                           ∈ DrawingState.undoneOperations log)
                (DrawingState.operations log) →
            let '(c', m', out) := onUndo now c m in
            c' = c ∧ out = [] ∧ ∀ r, logOf r m' = logOf r m) as HonUndo.
  { intros now c m log Hnone. subst log.
    pose proof (onUndo_spec now c m) as H. cbn zeta in H.
    destruct (onUndo now c m) as [[c' m'] out].
    destruct H as (-> & -> & (room & Hroom & Hlog) & Hother).
    rewrite (Hundo _ Hnone) in *. cbn in *.
    split; [done|]. split; [done|]. intros r.
    destruct (decide (r = currentRoom c)) as [->|Hne]; [|by apply Hother].
    by rewrite (logOf_lookup _ _ _ Hroom). }
  assert (∀ now c m,
            DrawingState.undoneOperations (logOf (currentRoom c) m) = ∅ →
            let '(c', m', out) := onRedo now c m in
            c' = c ∧ out = [] ∧ ∀ r, logOf r m' = logOf r m) as HonRedo.
  { intros now c m Hnone. pose proof (onRedo_spec now c m) as H.
    cbn zeta in H.
    destruct (onRedo now c m) as [[c' m'] out].
    destruct H as (-> & -> & (room & Hroom & Hlog) & Hother).
    rewrite (redo_nothing_undone _ Hnone) in *. cbn in *.
    split; [done|]. split; [done|]. intros r.
    destruct (decide (r = currentRoom c)) as [->|Hne]; [|by apply Hother].
    by rewrite (logOf_lookup _ _ _ Hroom). }
  split; [exact Hundo|]. split; [exact redo_nothing_undone|].
  split; [exact HonUndo|]. split; [exact HonRedo|].
  intros now sid s log. split; intros Hnone; cbn [step handle].
  - specialize (HonUndo now (connectionOf sid s) (manager s) Hnone).
    destruct (onUndo now (connectionOf sid s) (manager s)) as [[c' m'] out].
    destruct HonUndo as (_ & -> & _). cbn. apply app_nil_r.
  - specialize (HonRedo now (connectionOf sid s) (manager s) Hnone).
    destruct (onRedo now (connectionOf sid s) (manager s)) as [[c' m'] out].
    destruct HonRedo as (_ & -> & _). cbn. apply app_nil_r.
Qed.

(** The premises of C8 hold of a log whose only operation is undone,
    of the fresh log, and of the first message of a socket to a fresh
    process; the theorem gives the results there. *)
Lemma noop_undo_redo_silent_witness :
  let st := DrawingState.run
              [DrawingState.CallAdd 1 ∅; DrawingState.CallUndo] in
  let c := connect "s1" in
  DrawingState.undo st = (st, None)
  ∧ DrawingState.redo DrawingState.new = (DrawingState.new, None)
  ∧ (let '(c', m', out) := onUndo 5 c RoomManager.new in
     c' = c ∧ out = [] ∧ ∀ r, logOf r m' = logOf r RoomManager.new)
  ∧ (let '(c', m', out) := onRedo 5 c RoomManager.new in
     c' = c ∧ out = [] ∧ ∀ r, logOf r m' = logOf r RoomManager.new)
  ∧ emitted (step (Receive 5 "s1" UndoIn) Server.init) = emitted Server.init
  ∧ emitted (step (Receive 5 "s1" RedoIn) Server.init) = emitted Server.init.
Proof.
  intros st c.
  destruct noop_undo_redo_silent as (H1 & H2 & H3 & H4 & H5).
  split.
  { apply H1. right. repeat constructor. }
  split.
  { apply H2. reflexivity. }
  split.
  { apply (H3 5 c RoomManager.new). left. reflexivity. }
  split.
  { apply (H4 5 c RoomManager.new). reflexivity. }
  split.
  { apply (proj1 (H5 5 "s1" Server.init)). left. reflexivity. }
  { apply (proj2 (H5 5 "s1" Server.init)). reflexivity. }
Defined.

(** *** Colour allocation *)

Lemma filter_none {A} (P : A → Prop) `{∀ x, Decision (P x)} (l : list A) :
  Forall (λ x, ¬ P x) l → filter P l = [].
Proof.
  induction 1 as [|x l Hx _ IH]; [done|].
  by rewrite filter_cons_False.
Qed.

Lemma pickColor_first room pre color post :
  userColors = pre ++ color :: post →
  Forall (λ used, used ∈ usedColors room) pre →
  color ∉ usedColors room →
  pickColor room = color.
Proof.
  intros Hsplit Hpre Hfree. unfold pickColor. rewrite Hsplit at 1.
  rewrite filter_app, filter_none, filter_cons_True; [done..|].
  eapply Forall_impl; [exact Hpre|]. intros x Hx Hn. by apply Hn.
Qed.

Lemma pickColor_exhausted room :
  (∀ color, color ∈ userColors → color ∈ usedColors room) →
  userColors !! (JsMap.size (users room) mod length userColors)%nat
  = Some (pickColor room).
Proof.
  intros Hall. unfold pickColor. rewrite filter_none.
  - destruct (lookup_lt_is_Some_2 userColors
                (JsMap.size (users room) mod length userColors)%nat)
      as [color ->]; [|done].
    apply Nat.mod_upper_bound. done.
  - apply Forall_forall. intros x Hx Hn. by apply Hn, Hall.
Qed.

Lemma JsMap_get_set {V} k (v : V) l : JsMap.get k (JsMap.set k v l) = Some v.
Proof.
  induction l as [|[k' v'] l IH]; cbn.
  - by rewrite String.eqb_refl.
  - destruct (String.eqb k' k) eqn:E; cbn; by rewrite E.
Qed.

Lemma addUser_room now r sid name m :
  let room := (getRoom now r m).2 in
  let res := addUser now r sid name m in
  user_id res.2 = sid
  ∧ user_color res.2 = pickColor room
  ∧ getUser r sid res.1 = Some res.2.
Proof.
  intros room res. subst room res. unfold addUser.
  destruct (getRoom now r m) as [m1 room] eqn:E. cbn.
  split; [done|]. split; [done|].
  unfold getUser. rewrite putRoom_lookup. cbn. apply JsMap_get_set.
Qed.

(** C9.  The colour of a joining user.  [addUser] always returns a
    user, registered under the socket's id in the room.  Its colour is
    the first colour of the palette that is not in the room's used
    set, when there is one; when every palette colour is in the used
    set it is the palette entry at index (number of users in the room
    before the call) modulo (palette length).  That entry can already
    be the colour of another member: after thirteen sockets have
    joined one room, every palette colour was in use before the last
    join, the room has thirteen members, and the thirteenth has the
    colour of the first. *)
Theorem color_allocation :
  (∀ now r sid name m,
     let room := (getRoom now r m).2 in
     let res := addUser now r sid name m in
     getUser r sid res.1 = Some res.2
     ∧ (∀ pre color post,
          userColors = pre ++ color :: post →
          Forall (λ used, used ∈ usedColors room) pre →
          color ∉ usedColors room →
          user_color res.2 = color)
     ∧ ((∀ color, color ∈ userColors → color ∈ usedColors room) →
        userColors !! (JsMap.size (users room) mod length userColors)%nat
        = Some (user_color res.2)))
  ∧ (let before := manager (Server.run (take 12 thirteenJoins)) in
     let after := manager (Server.run thirteenJoins) in
     (∀ color, color ∈ userColors →
               color ∈ usedColors ((getRoom 0 "room" before).2))
     ∧ length (getRoomUsers "room" after) = 13%nat
     ∧ ∃ first last,
         getUser "room" "a" after = Some first
         ∧ getUser "room" "m" after = Some last
         ∧ user_id first ≠ user_id last
         ∧ user_color last = user_color first).
Proof.
  split.
  - intros now r sid name m room res.
    destruct (addUser_room now r sid name m) as (_ & Hcolor & Hreg).
    fold res room in Hcolor, Hreg.
    split; [done|]. split.
    + intros pre color post Hsplit Hpre Hfree. rewrite Hcolor.
      by apply (pickColor_first room pre color post).
    + intros Hall. rewrite Hcolor. by apply pickColor_exhausted.
  - intros before after. split.
    { apply Forall_forall. compute_done. }
    split; [by vm_compute|].
    eexists _, _. split; [by vm_compute|]. split; [by vm_compute|].
    split; [by vm_compute|]. by vm_compute.
Qed.

(** The premises of C9 hold of a join to a fresh registry, where no
    colour is used and the first palette colour is given, and of the
    thirteenth join to a room of twelve, where all are used. *)
Lemma color_allocation_witness :
  let full := manager (Server.run (take 12 thirteenJoins)) in
  let room := (getRoom 0 "room" full).2 in
  user_color (addUser 0 "room" "a" VUndefined RoomManager.new).2 = "#FF6B6B"
  ∧ Forall (λ color, color ∈ usedColors room) userColors
  ∧ userColors !! (JsMap.size (users room) mod length userColors)%nat
    = Some (user_color (addUser 0 "room" "m" VUndefined full).2).
Proof.
  intros full room.
  assert (Forall (λ color, color ∈ usedColors room) userColors) as Hall
    by (vm_compute; repeat constructor).
  split.
  { destruct (proj1 color_allocation 0 "room" "a" VUndefined RoomManager.new)
      as (_ & Hfirst & _).
    apply (Hfirst [] "#FF6B6B" (tail userColors)).
    - reflexivity.
    - constructor.
    - apply not_elem_of_empty. }
  split; [exact Hall|].
  destruct (proj1 color_allocation 0 "room" "m" VUndefined full)
    as (_ & _ & Hexhausted).
  apply Hexhausted. intros color Hcolor.
  exact (proj1 (Forall_forall _ _) Hall color Hcolor).
Defined.

End GatewayTheorems.

(** ** The replay on the client *)

Section ReplayTheorems.
Import CanvasManager.

Implicit Types (undone : gset Z) (ops : list Operation) (cv : list path).

Lemma redraw_loop_app undone pre post cv :
  redraw_loop undone (pre ++ post) cv =
  match redraw_loop undone pre cv with
  | Returned cv' => redraw_loop undone post cv'
  | TypeError cv' => TypeError cv'
  end.
Proof.
  revert cv. induction pre as [|op pre IH]; intros cv; [done|]. cbn.
  destruct (redraw_step undone op cv); [apply IH | done].
Qed.

(** An undone operation of any kind is skipped. *)
Lemma redraw_step_undone undone op cv :
  op_id op ∈ undone → redraw_step undone op cv = Returned cv.
Proof. intros Hin. unfold redraw_step. by rewrite decide_True. Qed.

(** A visible clear wipes the canvas. *)
Lemma redraw_step_clear undone i cv :
  i ∉ undone → redraw_step undone (Clear i) cv = Returned blank.
Proof. intros Hin. unfold redraw_step. by rewrite decide_False. Qed.

(** A visible stroke with a single point throws before anything is
    drawn. *)
Lemma redraw_step_single_point undone i pt color size tool cv :
  i ∉ undone →
  redraw_step undone (Stroke i [pt] color size tool) cv = TypeError cv.
Proof. intros Hin. unfold redraw_step. by rewrite decide_False. Qed.

Lemma redraw_skips_undone undone pre op post cv :
  op_id op ∈ undone →
  redraw_loop undone (pre ++ op :: post) cv
  = redraw_loop undone (pre ++ post) cv.
Proof.
  intros Hin. rewrite !redraw_loop_app.
  destruct (redraw_loop undone pre cv); [|done].
  cbn. by rewrite redraw_step_undone.
Qed.

(** When the pass reaches a visible clear, what was drawn before it is
    gone: the rest of the pass starts from the blank canvas. *)
Lemma redraw_clear_resets undone pre i post cv cv' :
  i ∉ undone →
  redraw_loop undone pre cv = Returned cv' →
  redraw_loop undone (pre ++ Clear i :: post) cv
  = redraw_loop undone post blank.
Proof.
  intros Hin Hpre. rewrite redraw_loop_app, Hpre. cbn.
  by rewrite redraw_step_clear.
Qed.

(** The pass visits the whole history exactly when no visible stroke has
    a single point. *)
Lemma redraw_loop_returns undone ops cv :
  (∃ cv', redraw_loop undone ops cv = Returned cv')
  ↔ Forall (λ op, op_id op ∈ undone ∨ drawable op) ops.
Proof.
  revert cv. induction ops as [|op ops IH]; intros cv.
  { split; [constructor | by eexists]. }
  rewrite Forall_cons. cbn. unfold redraw_step.
  destruct (decide (op_id op ∈ undone)) as [Hin|Hin].
  { rewrite IH. split; [by split; [left|] | by intros [_ ?]]. }
  destruct op as [i [|p [|q pts]] color size tool| |]; cbn;
    rewrite ?IH.
  - split; [by split; [right|] | by intros [_ ?]].
  - split; [by intros [cv' ?] | by intros [[?|?] _]].
  - split; [by split; [right|] | by intros [_ ?]].
  - split; [by split; [right|] | by intros [_ ?]].
  - split; [by split; [right|] | by intros [_ ?]].
Qed.

(** The redraw and the undo handler never change the history. *)
Lemma redrawCanvas_operations st :
  operations (final (redrawCanvas st)) = operations st.
Proof. unfold redrawCanvas. by destruct redraw_loop. Qed.

Lemma handleUndo_operations i st :
  operations (final (handleUndo i st)) = operations st.
Proof. unfold handleUndo. by rewrite redrawCanvas_operations. Qed.

(** The example of the design document, for a stroke of two points or
    more: with [stroke A (id 0), clear (id 1)] and nothing undone the
    redraw leaves the canvas blank, and once id 1 is undone it shows A
    alone; the history is the same throughout. *)
Lemma clear_is_fold_reset p q pts color size tool count cv :
  let A := Stroke 0 (p :: q :: pts) color size tool in
  let st := {| operations := [A; Clear 1];
               undoneOperations := ∅;
               operationCount := count;
               canvas := cv |} in
  (∃ st1, redrawCanvas st = Returned st1
          ∧ canvas st1 = blank ∧ operations st1 = [A; Clear 1])
  ∧ (∃ st2, handleUndo 1 st = Returned st2
            ∧ canvas st2
                = [mkPath (p :: q :: pts) color size (String.eqb tool "eraser")]
            ∧ operations st2 = [A; Clear 1]).
Proof.
  intros A st. split; eexists; (split; [reflexivity|]); by split.
Qed.

(** C6.  The redraw pass stops at a visible stroke that has a single
    point.  A click without movement is sent, stored and broadcast as
    a stroke with one point; for it [renderStroke] takes the branch
    written for two points, reads [points[1].x] and throws.  With the
    history [stroke (id 0, two points), stroke (id 1, one point),
    clear (id 2)] and nothing undone, [redrawCanvas] therefore ends
    with a [TypeError], the clear of id 2 is never reached, and the
    canvas shows the stroke of id 0.  With [stroke (id 0, one point),
    clear (id 1)], the redraw and the redraw after undoing id 1 both
    end with a [TypeError] and a blank canvas. *)
Theorem redraw_stops_at_single_point_stroke :
  let p := mkPoint (inject_Z 1) (inject_Z 1) in
  let q := mkPoint (inject_Z 2) (inject_Z 2) in
  let B := Stroke 0 [p; q] "#000000" (inject_Z 3) "brush" in
  let A := Stroke 1 [p] "#000000" (inject_Z 3) "brush" in
  let st := {| operations := [B; A; Clear 2];
               undoneOperations := ∅;
               operationCount := 3;
               canvas := blank |} in
  let st' := {| operations := [Stroke 0 [p] "#000000" (inject_Z 3) "brush";
                               Clear 1];
                undoneOperations := ∅;
                operationCount := 2;
                canvas := blank |} in
  (2 ∉ undoneOperations st)
  ∧ redrawCanvas st
      = TypeError
          (with_canvas st [mkPath [p; q] "#000000" (inject_Z 3) false])
  ∧ shown (redrawCanvas st) ≠ blank
  ∧ (∃ st1, redrawCanvas st' = TypeError st1 ∧ canvas st1 = blank)
  ∧ (∃ st2, handleUndo 1 st' = TypeError st2 ∧ canvas st2 = blank).
Proof.
  intros p q B A st st'.
  split; [apply not_elem_of_empty|]. split; [reflexivity|].
  split; [discriminate|]. split; eexists; by split.
Qed.

End ReplayTheorems.

(** * Further properties *)

(** ** The operation log: counts, round trips, growth *)

Section LogFurther.
Import DrawingState.

Implicit Types (st : state) (ops : list Operation) (undone : gset Z).

Lemma wf_NoDup_ids st : wf st → NoDup (ids st).
Proof. intros (-> & _ & _). apply NoDup_seqZ. Qed.

Lemma filter_split_length ops undone :
  (length (filter (λ op, op_id op ∉ undone) ops)
   + length (filter (λ i, i ∈ undone) (op_id <$> ops)))%nat
  = length ops.
Proof.
  induction ops as [|op ops IH]; [done|].
  rewrite fmap_cons, !filter_cons.
  destruct (decide (op_id op ∈ undone)) as [Hin|Hin].
  - rewrite decide_False by (by intros H; apply H). cbn. lia.
  - rewrite decide_True by done. cbn. lia.
Qed.

(** On a well-formed log the undone ids are exactly the ids of the
    operations that [getActiveOperations] leaves out. *)
Lemma undone_count st :
  wf st →
  length (filter (λ i, i ∈ undoneOperations st) (ids st))
  = size (undoneOperations st).
Proof.
  intros Hwf. unfold size, set_size. cbn. apply Permutation_length.
  apply NoDup_Permutation.
  - apply NoDup_filter. by apply wf_NoDup_ids.
  - apply NoDup_elements.
  - intros i. rewrite list_elem_of_filter, elem_of_elements.
    split; [by intros [? _]|]. intros Hi. split; [done|]. by apply Hwf.
Qed.

Lemma active_plus_undone st :
  wf st →
  (length (getActiveOperations st) + size (undoneOperations st))%nat
  = length (operations st).
Proof.
  intros Hwf. rewrite <- (undone_count st Hwf).
  apply filter_split_length.
Qed.

(** The statistics of a log add up: after every sequence of calls,
    [totalOperations] is [activeOperations] plus the size of the undone
    set. *)
Theorem getStats_adds_up cs :
  let '(total, active, undoneCount) := getStats (run cs) in
  total = (active + undoneCount)%nat.
Proof.
  unfold getStats. symmetry. apply active_plus_undone, wf_run.
Qed.

(** After every sequence of calls, a successful [undo()] takes exactly
    one operation out of [getActiveOperations()] and a successful
    [redo()] puts exactly one back; [undo()] fails only when nothing is
    active and [redo()] only when everything is. *)
Theorem undo_redo_move_one_operation cs :
  let st := run cs in
  match (undo st).2 with
  | Some _ =>
      (length (getActiveOperations (undo st).1) + 1)%nat
      = length (getActiveOperations st)
  | None => getActiveOperations st = []
  end
  ∧ match (redo st).2 with
    | Some _ =>
        length (getActiveOperations (redo st).1)
        = (length (getActiveOperations st) + 1)%nat
    | None => getActiveOperations st = operations st
    end.
Proof.
  intros st. pose proof (wf_run cs : wf st) as Hwf.
  pose proof (active_plus_undone st Hwf) as Hst. split.
  - pose proof (active_plus_undone _ (wf_undo st Hwf)) as Hst'.
    rewrite undo_operations in Hst'. unfold undo in *.
    pose proof (undo_scan_spec (operations st) (undoneOperations st)) as Hs.
    destruct undo_scan as [i|]; cbn in *.
    + destruct Hs as (pre & op & post & _ & _ & Hni & _).
      rewrite size_union, size_singleton in Hst' by set_solver. lia.
    + unfold getActiveOperations. apply filter_none.
      eapply Forall_impl; [exact Hs|]. intros op Hop Hn. by apply Hn.
  - pose proof (active_plus_undone _ (wf_redo st Hwf)) as Hst'.
    rewrite redo_operations in Hst'.
    destruct (redo_spec st Hwf) as [[He Hr]|(m & Hm & _ & Hr)];
      rewrite Hr in *; cbn in *.
    + by apply getActiveOperations_none_undone.
    + rewrite size_difference, size_singleton in Hst' by set_solver.
      assert (size (undoneOperations st) ≠ 0%nat); [|lia].
      intros Hz. apply size_empty_inv in Hz. set_solver.
Qed.

Lemma add_then_delete (U : gset Z) m : m ∉ U → ({[m]} ∪ U) ∖ {[m]} = U.
Proof.
  intros Hm. apply set_eq. intros i.
  rewrite elem_of_difference, elem_of_union, elem_of_singleton.
  split; [by intros [[?|?] ?] | intros Hi; split; [by right|by intros ->]].
Qed.

(** The id of the last stored operation of a well-formed log is the
    largest stored id. *)
Lemma wf_last_id st pre op i :
  wf st → operations st = pre ++ [op] → i ∈ ids st → i ≤ op_id op.
Proof.
  intros Hwf Hops Hi.
  assert (op_id op = Z.of_nat (length pre)) as ->.
  { apply (wf_lookup_id st); [done|]. rewrite Hops.
    by apply list_lookup_middle. }
  destruct Hwf as (Hids & _ & _). rewrite Hids, Hops, length_app in Hi.
  apply elem_of_seqZ in Hi. cbn in Hi. lia.
Qed.

(** Undo followed by redo is the identity when the latest operation is
    visible (in particular right after an append): [undo()] then
    tombstones that operation and [redo()] brings it back, leaving the
    log exactly as it was. *)
Theorem undo_then_redo_restores cs op :
  let st := run cs in
  last (operations st) = Some op →
  op_id op ∉ undoneOperations st →
  (undo st).2 = Some (Undo (op_id op))
  ∧ redo (undo st).1 = (st, Some (Redo (op_id op))).
Proof.
  intros st Hlast Hvis. pose proof (wf_run cs : wf st) as Hwf.
  apply last_Some in Hlast as [pre Hops].
  assert (undo st =
            (mkState (operations st) (operationCounter st)
               ({[op_id op]} ∪ undoneOperations st),
             Some (Undo (op_id op)))) as Hu.
  { apply (undo_found st pre op []); [done|done|constructor]. }
  pose proof (wf_undo st Hwf) as Hwf1. rewrite Hu in Hwf1 |- *.
  cbn [fst snd] in *. split; [done|].
  rewrite (redo_max _ (op_id op)); cbn.
  - rewrite add_then_delete by done. by destruct st.
  - done.
  - apply elem_of_union. left. by apply elem_of_singleton.
  - intros i [Hi|Hi]%elem_of_union.
    + apply elem_of_singleton in Hi. lia.
    + apply (wf_last_id st pre); [done..|]. by apply Hwf.
Qed.

Lemma undo_then_redo_restores_witness :
  let cs := [CallAdd 1 ∅; CallClear 2] in
  let op := mkOperation {[ "type" := VStr "clear" ]} 1 2 in
  last (operations (run cs)) = Some op
  ∧ (op_id op ∉ undoneOperations (run cs))
  ∧ (undo (run cs)).2 = Some (Undo 1)
  ∧ redo (undo (run cs)).1 = (run cs, Some (Redo 1)).
Proof.
  intros cs op.
  assert (last (operations (run cs)) = Some op) as Hlast by reflexivity.
  assert (op_id op ∉ undoneOperations (run cs)) as Hvis
    by apply not_elem_of_empty.
  split; [exact Hlast|]. split; [exact Hvis|].
  exact (undo_then_redo_restores cs op Hlast Hvis).
Defined.

(** When the latest operation is already undone, redo does not revert
    the undo just made: [undo()] tombstones an older operation, and
    [redo()] then restores the latest operation, which has the largest
    undone id, and leaves the one just undone hidden. *)
Theorem redo_restores_largest_id cs op i :
  let st := run cs in
  last (operations st) = Some op →
  op_id op ∈ undoneOperations st →
  (undo st).2 = Some (Undo i) →
  i < op_id op
  ∧ (redo (undo st).1).2 = Some (Redo (op_id op))
  ∧ i ∈ undoneOperations (redo (undo st).1).1
  ∧ (op_id op ∉ undoneOperations (redo (undo st).1).1).
Proof.
  intros st Hlast Hund Hundo. pose proof (wf_run cs : wf st) as Hwf.
  apply last_Some in Hlast as [pre Hops].
  pose proof (wf_undo st Hwf) as Hwf'.
  unfold undo in Hundo, Hwf' |- *.
  pose proof (undo_scan_spec (operations st) (undoneOperations st)) as Hs.
  destruct undo_scan as [j|]; [|done]. cbn in Hundo. injection Hundo as ->.
  destruct Hs as (pre' & o & post & Hops' & Hi & Hni & _).
  assert (i ≤ op_id op) as Hle.
  { apply (wf_last_id st pre); [done..|]. rewrite <- Hi. unfold ids.
    rewrite Hops'. apply list_elem_of_fmap_2, elem_of_app. right.
    apply elem_of_cons. by left. }
  assert (i ≠ op_id op) as Hne by (by intros ->).
  cbn [fst] in *.
  rewrite (redo_max _ (op_id op)); cbn.
  - split; [lia|]. split; [done|]. split.
    + apply elem_of_difference. split.
      * apply elem_of_union. left. by apply elem_of_singleton.
      * by intros ?%elem_of_singleton.
    + intros [_ Hn]%elem_of_difference. by apply Hn, elem_of_singleton.
  - done.
  - apply elem_of_union. by right.
  - intros k [Hk|Hk]%elem_of_union.
    + apply elem_of_singleton in Hk. lia.
    + apply (wf_last_id st pre); [done..|]. by apply Hwf.
Qed.

Lemma redo_restores_largest_id_witness :
  let cs := [CallAdd 1 ∅; CallAdd 2 ∅; CallUndo] in
  let op := mkOperation ∅ 1 2 in
  last (operations (run cs)) = Some op
  ∧ op_id op ∈ undoneOperations (run cs)
  ∧ (undo (run cs)).2 = Some (Undo 0)
  ∧ 0 < op_id op
  ∧ (redo (undo (run cs)).1).2 = Some (Redo (op_id op))
  ∧ 0 ∈ undoneOperations (redo (undo (run cs)).1).1
  ∧ (op_id op ∉ undoneOperations (redo (undo (run cs)).1).1).
Proof.
  intros cs op.
  assert (last (operations (run cs)) = Some op) as Hlast by reflexivity.
  assert (op_id op ∈ undoneOperations (run cs)) as Hund
    by (vm_compute; reflexivity).
  assert ((undo (run cs)).2 = Some (Undo 0)) as Hundo
    by (vm_compute; reflexivity).
  split; [exact Hlast|]. split; [exact Hund|]. split; [exact Hundo|].
  exact (redo_restores_largest_id cs op 0 Hlast Hund Hundo).
Defined.

Lemma exec_operations_prefix c st :
  operations st `prefix_of` operations (exec c st).
Proof.
  destruct c; cbn [exec].
  - by apply prefix_app_r.
  - by apply prefix_app_r.
  - by rewrite undo_operations.
  - by rewrite redo_operations.
Qed.

(** The history is append-only: whatever calls follow, the operations
    stored so far stay where they are, unchanged. *)
Theorem history_is_append_only cs cs' :
  operations (run cs) `prefix_of` operations (run (cs ++ cs')).
Proof.
  induction cs' as [|c cs' IH] using rev_ind.
  - by rewrite app_nil_r.
  - rewrite app_assoc, run_snoc. etrans; [exact IH|].
    apply exec_operations_prefix.
Qed.

End LogFurther.

(** ** Maps in insertion order *)

Section JsMapLemmas.
Context {V : Type}.

Implicit Types (m : list (string * V)) (k : string) (v : V).

Lemma JsMap_get_set_ne k k' v m :
  k ≠ k' → JsMap.get k' (JsMap.set k v m) = JsMap.get k' m.
Proof.
  intros Hne. induction m as [|[k0 v0] m IH]; cbn.
  - by apply String.eqb_neq in Hne as ->.
  - destruct (String.eqb k0 k) eqn:E; cbn; [|by rewrite IH].
    apply String.eqb_eq in E as ->.
    by apply String.eqb_neq in Hne as ->.
Qed.

Lemma JsMap_get_None k m : JsMap.get k m = None ↔ k ∉ JsMap.keys m.
Proof.
  unfold JsMap.keys. induction m as [|[k0 v0] m IH]; cbn.
  - split; [intros _ H; by inversion H | done].
  - rewrite not_elem_of_cons. destruct (String.eqb k0 k) eqn:E.
    + apply String.eqb_eq in E as ->. split; [done | by intros [? _]].
    + apply String.eqb_neq in E. rewrite IH. split; [by split | by intros [_ ?]].
Qed.

Lemma JsMap_get_Some k v m : JsMap.get k m = Some v → (k, v) ∈ m.
Proof.
  induction m as [|[k0 v0] m IH]; cbn; [done|].
  destruct (String.eqb k0 k) eqn:E.
  - apply String.eqb_eq in E as ->. intros [= ->]. apply elem_of_cons. by left.
  - intros H. apply elem_of_cons. right. by apply IH.
Qed.

(** A new key goes to the end; an existing key keeps its place. *)
Lemma JsMap_set_fresh k v m :
  k ∉ JsMap.keys m → JsMap.set k v m = m ++ [(k, v)].
Proof.
  unfold JsMap.keys. induction m as [|[k0 v0] m IH]; cbn; [done|].
  rewrite not_elem_of_cons. intros [Hne Hm].
  assert (k0 ≠ k) as Hne' by done.
  apply String.eqb_neq in Hne' as ->. by rewrite IH.
Qed.

Lemma JsMap_keys_set_present k v m :
  k ∈ JsMap.keys m → JsMap.keys (JsMap.set k v m) = JsMap.keys m.
Proof.
  unfold JsMap.keys. induction m as [|[k0 v0] m IH]; cbn.
  - intros H. by inversion H.
  - destruct (String.eqb k0 k) eqn:E; [done|]. cbn.
    apply String.eqb_neq in E. intros [?|Hin]%elem_of_cons; [done|].
    by rewrite IH.
Qed.

Lemma JsMap_keys_set k v m :
  JsMap.keys (JsMap.set k v m) =
  if decide (k ∈ JsMap.keys m) then JsMap.keys m else JsMap.keys m ++ [k].
Proof.
  case_decide as Hin.
  - by apply JsMap_keys_set_present.
  - rewrite JsMap_set_fresh by done. unfold JsMap.keys. by rewrite fmap_app.
Qed.

Lemma JsMap_set_NoDup k v m :
  NoDup (JsMap.keys m) → NoDup (JsMap.keys (JsMap.set k v m)).
Proof.
  intros Hnd. rewrite JsMap_keys_set. case_decide as Hin; [done|].
  apply NoDup_app. split; [done|]. split; [|apply NoDup_singleton].
  intros x Hx ->%list_elem_of_singleton. done.
Qed.

Lemma JsMap_elem_of_set k v m k' v' :
  (k', v') ∈ JsMap.set k v m → (k' = k ∧ v' = v) ∨ (k', v') ∈ m.
Proof.
  induction m as [|[k0 v0] m IH]; cbn.
  - intros [= -> ->]%list_elem_of_singleton. by left.
  - destruct (String.eqb k0 k) eqn:E.
    + apply String.eqb_eq in E as ->.
      intros [[= -> ->]|Hin]%elem_of_cons; [by left|].
      right. apply elem_of_cons. by right.
    + intros [[= -> ->]|Hin]%elem_of_cons.
      * right. apply elem_of_cons. by left.
      * destruct (IH Hin) as [?|?]; [by left|].
        right. apply elem_of_cons. by right.
Qed.

Lemma JsMap_elem_of_delete k m k' v' :
  (k', v') ∈ JsMap.delete k m → (k', v') ∈ m.
Proof.
  induction m as [|[k0 v0] m IH]; cbn; [done|].
  destruct (String.eqb k0 k).
  - intros Hin. apply elem_of_cons. by right.
  - intros [->|Hin]%elem_of_cons; apply elem_of_cons; [by left|].
    right. by apply IH.
Qed.

Lemma JsMap_keys_delete k m :
  NoDup (JsMap.keys m) →
  JsMap.keys (JsMap.delete k m) = filter (λ k', k' ≠ k) (JsMap.keys m).
Proof.
  unfold JsMap.keys. induction m as [|[k0 v0] m IH]; [done|].
  intros [Hk0 Hnd]%NoDup_cons. cbn -[filter].
  destruct (String.eqb k0 k) eqn:E.
  - apply String.eqb_eq in E as ->.
    rewrite filter_cons_False by (by intros H; apply H).
    clear IH. induction m as [|[k1 v1] m IH]; [done|]. cbn -[filter] in *.
    apply not_elem_of_cons in Hk0 as [Hne Hk0].
    apply NoDup_cons in Hnd as [_ Hnd].
    rewrite filter_cons_True by done. by rewrite <- IH.
  - apply String.eqb_neq in E. rewrite filter_cons_True by done. cbn.
    by rewrite IH.
Qed.

Lemma JsMap_delete_NoDup k m :
  NoDup (JsMap.keys m) → NoDup (JsMap.keys (JsMap.delete k m)).
Proof. intros Hnd. rewrite JsMap_keys_delete by done. by apply NoDup_filter. Qed.

Lemma JsMap_get_delete k m :
  NoDup (JsMap.keys m) → JsMap.get k (JsMap.delete k m) = None.
Proof.
  intros Hnd. apply JsMap_get_None. rewrite JsMap_keys_delete by done.
  rewrite list_elem_of_filter. by intros [? _].
Qed.

Lemma JsMap_get_delete_ne k k' m :
  k ≠ k' → JsMap.get k' (JsMap.delete k m) = JsMap.get k' m.
Proof.
  intros Hne. induction m as [|[k0 v0] m IH]; cbn; [done|].
  destruct (String.eqb k0 k) eqn:E; cbn.
  - apply String.eqb_eq in E as ->.
    by apply String.eqb_neq in Hne as ->.
  - by rewrite IH.
Qed.

Lemma JsMap_size_set k v m :
  JsMap.size (JsMap.set k v m) =
  if decide (k ∈ JsMap.keys m) then JsMap.size m else S (JsMap.size m).
Proof.
  unfold JsMap.size.
  rewrite <- (length_fmap fst (JsMap.set k v m)), <- (length_fmap fst m).
  fold (JsMap.keys (JsMap.set k v m)). fold (JsMap.keys m).
  rewrite JsMap_keys_set. case_decide; [done|].
  rewrite length_app. cbn. lia.
Qed.

End JsMapLemmas.

(** ** The registry: representation invariant *)

Section RegistryInvariant.
Import RoomManager Server.

Implicit Types (m : RoomManager.state) (room : Room) (r : string).

Lemma room_ok_new now r : room_ok r (newRoom now r).
Proof.
  split; [done|]. split; [constructor|]. split.
  - intros k u H. by inversion H.
  - intros color H. by apply not_elem_of_empty in H.
Qed.

Lemma registry_ok_new : registry_ok RoomManager.new.
Proof. intros r room H. cbn in H. by rewrite lookup_empty in H. Qed.

Lemma registry_ok_putRoom r room m :
  registry_ok m → room_ok r room → registry_ok (putRoom r room m).
Proof.
  intros Hm Hroom r' room'. unfold putRoom. cbn.
  destruct (decide (r = r')) as [<-|Hne].
  - rewrite lookup_insert_eq. by intros [= <-].
  - rewrite lookup_insert_ne by done. apply Hm.
Qed.

Lemma registry_ok_getRoom now r m :
  registry_ok m →
  registry_ok (getRoom now r m).1 ∧ room_ok r (getRoom now r m).2.
Proof.
  intros Hm. unfold getRoom. destruct (rooms m !! r) as [room|] eqn:E; cbn.
  - split; [done|]. by apply Hm.
  - split; [|apply room_ok_new].
    apply (registry_ok_putRoom r (newRoom now r) m); [done|apply room_ok_new].
Qed.

(** The colour [addUser] picks is always a palette colour. *)
Lemma pickColor_in_palette room : pickColor room ∈ userColors.
Proof.
  unfold pickColor.
  destruct (filter _ userColors) as [|color rest] eqn:E.
  - destruct (lookup_lt_is_Some_2 userColors
                (JsMap.size (users room) mod length userColors)%nat)
      as [color Hc].
    { apply Nat.mod_upper_bound. done. }
    rewrite Hc. cbn. by eapply list_elem_of_lookup_2.
  - assert (color ∈ filter (λ color, color ∉ usedColors room) userColors)
      as Hin by (rewrite E; apply elem_of_cons; by left).
    by apply list_elem_of_filter in Hin as [_ ?].
Qed.

Lemma room_ok_withLog r room log : room_ok r room → room_ok r (withLog room log).
Proof. done. Qed.

Lemma registry_ok_addUser now r sid name m :
  registry_ok m → registry_ok (addUser now r sid name m).1.
Proof.
  intros Hm. unfold addUser.
  destruct (registry_ok_getRoom now r m Hm) as [Hm1 Hroom].
  destruct (getRoom now r m) as [m1 room]. cbn in *.
  apply registry_ok_putRoom; [done|].
  destruct Hroom as (Hid & Hnd & Husers & Hcolors).
  split; [done|]. split; [by apply JsMap_set_NoDup|]. split; cbn.
  - intros k u [[-> ->]|Hin]%JsMap_elem_of_set; [|by apply Husers].
    split; [done|]. apply pickColor_in_palette.
  - intros color [->%elem_of_singleton|Hin]%elem_of_union;
      [apply pickColor_in_palette | by apply Hcolors].
Qed.

Lemma registry_ok_removeUser r sid m :
  registry_ok m → registry_ok (removeUser r sid m).
Proof.
  intros Hm. unfold removeUser.
  destruct (rooms m !! r) as [room|] eqn:E; [|done].
  intros r' room'. cbn. destruct (decide (r = r')) as [<-|Hne].
  - rewrite lookup_insert_eq. intros [= <-].
    destruct (Hm r room E) as (Hid & Hnd & Husers & Hcolors).
    destruct (JsMap.get sid (users room)); [|by split].
    split; [done|]. split; [by apply JsMap_delete_NoDup|]. split; cbn.
    + intros k u' Hin%JsMap_elem_of_delete. by apply Husers.
    + intros color [Hin _]%elem_of_difference. by apply Hcolors.
  - rewrite lookup_insert_ne by done. apply Hm.
Qed.

Lemma registry_ok_updateUserCursor r sid cursor m :
  registry_ok m → registry_ok (updateUserCursor r sid cursor m).
Proof.
  intros Hm. unfold updateUserCursor.
  destruct (rooms m !! r) as [room|] eqn:E; [|done].
  destruct (JsMap.get sid (users room)) as [user|] eqn:Eu; [|done].
  apply registry_ok_putRoom; [done|].
  destruct (Hm r room E) as (Hid & Hnd & Husers & Hcolors).
  split; [done|]. split; [by apply JsMap_set_NoDup|]. split; [|done]. cbn.
  intros k u [[-> ->]|Hin]%JsMap_elem_of_set; [|by apply Husers].
  cbn. by apply Husers, JsMap_get_Some.
Qed.

Lemma registry_ok_cleanUp r m : registry_ok m → registry_ok (cleanUp r m).
Proof.
  intros Hm. unfold cleanUp. destruct (rooms m !! r) as [room|]; [|done].
  destruct (JsMap.size (users room) =? 0)%nat; [|done].
  intros r' room'. cbn. intros [_ H]%lookup_delete_Some. by apply Hm.
Qed.

Lemma registry_ok_fireTimer m : registry_ok m → registry_ok (fireTimer m).
Proof.
  intros Hm. unfold fireTimer. destruct (timers m) as [|r rest]; [done|].
  by apply registry_ok_cleanUp.
Qed.

(** A log handler writes back the room it got with a new log. *)
Lemma registry_ok_log_handler now r m log :
  registry_ok m →
  registry_ok
    (putRoom r (withLog (getRoom now r m).2 log) (getRoom now r m).1).
Proof.
  intros Hm. destruct (registry_ok_getRoom now r m Hm) as [Hm1 Hroom].
  by apply registry_ok_putRoom.
Qed.

Lemma registry_ok_handle now i c m :
  registry_ok m → registry_ok (handle now i c m).1.2.
Proof.
  intros Hm. destruct i; cbn [handle].
  - unfold onJoinRoom.
    pose proof (registry_ok_addUser now (default "default" roomId)
                  (socket_id c) userName m Hm) as H1.
    destruct (addUser _ _ _ _ _) as [m1 user]. cbn in H1.
    pose proof (registry_ok_getRoom now (default "default" roomId) m1 H1)
      as [H2 _].
    by destruct (getRoom _ _ m1) as [m2 room].
  - unfold onDrawStroke.
    pose proof (registry_ok_log_handler now (currentRoom c) m) as H.
    destruct (getRoom now (currentRoom c) m) as [m1 room]. cbn.
    by apply H.
  - cbn. by apply registry_ok_updateUserCursor.
  - unfold onUndo.
    pose proof (registry_ok_log_handler now (currentRoom c) m) as H.
    destruct (getRoom now (currentRoom c) m) as [m1 room].
    destruct (DrawingState.undo _) as [log u]. cbn. by apply H.
  - unfold onRedo.
    pose proof (registry_ok_log_handler now (currentRoom c) m) as H.
    destruct (getRoom now (currentRoom c) m) as [m1 room].
    destruct (DrawingState.redo _) as [log u]. cbn. by apply H.
  - unfold onClearCanvas.
    pose proof (registry_ok_log_handler now (currentRoom c) m) as H.
    destruct (getRoom now (currentRoom c) m) as [m1 room]. cbn.
    by apply H.
  - done.
  - done.
  - unfold onDisconnect. destruct (currentUser c); [|done].
    destruct (String.eqb _ _); cbn; [done|].
    by apply registry_ok_removeUser.
Qed.

Lemma registry_ok_step e s :
  registry_ok (manager s) → registry_ok (manager (step e s)).
Proof.
  intros Hm. destruct e as [now sid i|]; cbn.
  - pose proof (registry_ok_handle now i (connectionOf sid s) (manager s) Hm)
      as H.
    by destruct (handle now i (connectionOf sid s) (manager s))
      as [[c' m'] out].
  - by apply registry_ok_fireTimer.
Qed.

Lemma registry_ok_run es : registry_ok (manager (Server.run es)).
Proof.
  induction es as [|e es IH] using rev_ind; [apply registry_ok_new|].
  rewrite server_run_snoc. by apply registry_ok_step.
Qed.

End RegistryInvariant.

(** ** The registry: rooms, members, colours, teardown *)

Section RegistryFurther.
Import RoomManager Server.

Implicit Types (m : RoomManager.state) (room : Room) (r : string).

(** [getRoom] is lazy and idempotent: it returns the stored room, or
    stores and returns a room with no members, no colour in use and an
    empty log; a second call returns the same room and changes
    nothing; no other room and no timer is touched. *)
Theorem getRoom_lazy_idempotent now now' r m :
  let '(m1, room) := getRoom now r m in
  getRoom now' r m1 = (m1, room)
  ∧ room = default (newRoom now r) (rooms m !! r)
  ∧ rooms m1 = <[r := room]> (rooms m)
  ∧ timers m1 = timers m.
Proof.
  unfold getRoom. destruct (rooms m !! r) as [room|] eqn:E.
  - rewrite E. split; [done|]. split; [done|]. split; [|done].
    by rewrite insert_id.
  - cbn. rewrite lookup_insert_eq. done.
Qed.

Lemma getUser_addUser now r sid name m :
  getUser r sid (addUser now r sid name m).1
  = Some (addUser now r sid name m).2.
Proof. apply (addUser_room now r sid name m). Qed.

Lemma rooms_addUser_ne now r sid name m r' :
  r ≠ r' → rooms (addUser now r sid name m).1 !! r' = rooms m !! r'.
Proof.
  intros Hne. unfold addUser.
  pose proof (getRoom_lookup_ne now r r' m Hne) as H.
  destruct (getRoom now r m) as [m1 room]. cbn in *.
  by rewrite lookup_insert_ne.
Qed.

Lemma rooms_removeUser_ne r sid m r' :
  r ≠ r' → rooms (removeUser r sid m) !! r' = rooms m !! r'.
Proof.
  intros Hne. unfold removeUser. destruct (rooms m !! r); [|done]. cbn.
  by rewrite lookup_insert_ne.
Qed.

(** What [addUser] stores for the room. *)
Lemma addUser_stored now r sid name m :
  let room := (getRoom now r m).2 in
  let res := addUser now r sid name m in
  rooms res.1 !! r
  = Some {| room_id := room_id room;
            drawingState := drawingState room;
            users := JsMap.set sid res.2 (users room);
            usedColors := {[user_color res.2]} ∪ usedColors room;
            createdAt := createdAt room |}.
Proof.
  intros room res. subst room res. unfold addUser.
  destruct (getRoom now r m) as [m1 room]. cbn. apply lookup_insert_eq.
Qed.

(** What [removeUser] stores for a room it finds. *)
Lemma removeUser_stored r sid m room :
  rooms m !! r = Some room →
  rooms (removeUser r sid m) !! r
  = Some match JsMap.get sid (users room) with
         | Some user =>
             {| room_id := room_id room;
                drawingState := drawingState room;
                users := JsMap.delete sid (users room);
                usedColors := usedColors room ∖ {[user_color user]};
                createdAt := createdAt room |}
         | None => room
         end.
Proof.
  intros E. unfold removeUser. rewrite E. cbn. apply lookup_insert_eq.
Qed.

(** Joining and leaving.  In every state the registry can reach, after
    [addUser] the socket is a member with the returned user object, and
    after [removeUser] it is not; the other sockets' memberships in
    that room and all other rooms are as before the two calls, and the
    colour the user had is no longer marked used. *)
Theorem join_then_leave es now r sid name :
  let m := manager (Server.run es) in
  let joined := addUser now r sid name m in
  let m' := removeUser r sid joined.1 in
  getUser r sid joined.1 = Some joined.2
  ∧ getUser r sid m' = None
  ∧ (∀ sid', sid' ≠ sid → getUser r sid' m' = getUser r sid' m)
  ∧ (∀ r', r' ≠ r → rooms m' !! r' = rooms m !! r')
  ∧ (user_color joined.2 ∉ usedColorsOf r m').
Proof.
  intros m joined m'.
  pose proof (registry_ok_run es : registry_ok m) as Hok.
  pose proof (registry_ok_addUser now r sid name m Hok) as Hok1.
  pose proof (addUser_stored now r sid name m) as Hst. cbn zeta in Hst.
  fold joined in Hst, Hok1.
  pose proof (getUser_addUser now r sid name m) as Hget. fold joined in Hget.
  pose proof (removeUser_stored r sid joined.1 _ Hst) as Hst'. fold m' in Hst'.
  cbn [users] in Hst'. rewrite JsMap_get_set in Hst'.
  destruct (Hok1 r _ Hst) as (_ & Hnd & _ & _). cbn [users] in Hnd.
  split; [done|]. split; [|split; [|split]].
  - unfold getUser. rewrite Hst'. cbn. by apply JsMap_get_delete.
  - intros sid' Hne. unfold getUser at 1. rewrite Hst'. cbn.
    rewrite JsMap_get_delete_ne, JsMap_get_set_ne by done.
    unfold getUser. rewrite getRoom_room.
    by destruct (rooms m !! r).
  - intros r' Hne. subst m'.
    rewrite rooms_removeUser_ne by done. subst joined.
    by rewrite rooms_addUser_ne.
  - unfold usedColorsOf. rewrite Hst'. cbn.
    intros [_ Hn]%elem_of_difference. by apply Hn, elem_of_singleton.
Qed.

Lemma join_then_leave_witness :
  let es := [Receive 1 "s1" (JoinRoom (Some "room") (VStr "ann"))] in
  let m := manager (Server.run es) in
  let joined := addUser 2 "room" "s2" VUndefined m in
  let m' := removeUser "room" "s2" joined.1 in
  "s1" ≠ "s2"
  ∧ getUser "room" "s1" m' = getUser "room" "s1" m
  ∧ "lobby" ≠ "room"
  ∧ rooms m' !! "lobby" = rooms m !! "lobby".
Proof.
  intros es m joined m'.
  destruct (join_then_leave es 2 "room" "s2" VUndefined)
    as (_ & _ & Hothers & Hrooms & _).
  assert ("s1" ≠ "s2") as H1 by discriminate.
  assert ("lobby" ≠ "room") as H2 by discriminate.
  split; [exact H1|]. split; [exact (Hothers "s1" H1)|].
  split; [exact H2|]. exact (Hrooms "lobby" H2).
Defined.

Lemma addUser_timers now r sid name m :
  timers (addUser now r sid name m).1 = timers m.
Proof.
  unfold addUser. unfold getRoom. by destruct (rooms m !! r).
Qed.

(** Leaving a room that does not exist changes nothing, and creates no
    room.  Leaving a room of which the socket is no member leaves the
    rooms as they are, but starts a clean-up timer when that room is
    empty. *)
Theorem removeUser_of_stranger r sid m :
  (rooms m !! r = None → removeUser r sid m = m)
  ∧ (∀ room,
       rooms m !! r = Some room →
       JsMap.get sid (users room) = None →
       rooms (removeUser r sid m) = rooms m
       ∧ timers (removeUser r sid m)
         = if decide (users room = []) then timers m ++ [r] else timers m).
Proof.
  split.
  - intros E. unfold removeUser. by rewrite E.
  - intros room E Hget. unfold removeUser. rewrite E, Hget. cbn.
    split; [by apply insert_id|].
    destruct (users room) as [|entry rest]; cbn; [|by rewrite decide_False].
    by rewrite decide_True.
Qed.

Lemma removeUser_of_stranger_witness :
  let m := manager (Server.run
                      [Receive 1 "s1" (JoinRoom (Some "room") VUndefined)]) in
  let room := (getRoom 0 "room" m).2 in
  rooms m !! "lobby" = None
  ∧ removeUser "lobby" "s1" m = m
  ∧ rooms m !! "room" = Some room
  ∧ JsMap.get "s2" (users room) = None
  ∧ rooms (removeUser "room" "s2" m) = rooms m
  ∧ timers (removeUser "room" "s2" m) = timers m.
Proof.
  intros m room.
  assert (rooms m !! "lobby" = None) as H1 by reflexivity.
  assert (rooms m !! "room" = Some room) as H2 by (vm_compute; reflexivity).
  assert (JsMap.get "s2" (users room) = None) as H3 by reflexivity.
  split; [exact H1|].
  split; [exact (proj1 (removeUser_of_stranger "lobby" "s1" m) H1)|].
  split; [exact H2|]. split; [exact H3|].
  exact (proj2 (removeUser_of_stranger "room" "s2" m) room H2 H3).
Defined.

(** The clean-up timer deletes a room only if it has no member. *)
Lemma cleanUp_occupied r m room :
  rooms m !! r = Some room → users room ≠ [] → cleanUp r m = m.
Proof.
  intros E Hne. unfold cleanUp. rewrite E.
  by destruct (users room).
Qed.

Lemma cleanUp_empty r m room :
  rooms m !! r = Some room → users room = [] →
  cleanUp r m = {| rooms := delete r (rooms m); timers := timers m |}.
Proof. intros E He. unfold cleanUp. by rewrite E, He. Qed.

(** The grace period of an emptied room.  When the only member of a room
    leaves and no timer is pending, the room stays, empty and with its
    log, and one timer is started.  If the timer fires while the room is
    still empty, the room is deleted and its id denotes the empty log
    again; if somebody has joined before it fires, the firing changes no
    room and the log is the one the room had. *)
Theorem last_member_leaves r sid user room m :
  rooms m !! r = Some room →
  users room = [(sid, user)] →
  timers m = [] →
  let m1 := removeUser r sid m in
  timers m1 = [r]
  ∧ getRoomUsers r m1 = []
  ∧ logOf r m1 = logOf r m
  ∧ rooms (fireTimer m1) !! r = None
  ∧ logOf r (fireTimer m1) = DrawingState.new
  ∧ (∀ now sid' name,
       let m2 := (addUser now r sid' name m1).1 in
       rooms (fireTimer m2) = rooms m2
       ∧ logOf r (fireTimer m2) = logOf r m).
Proof.
  intros E Hu Ht m1.
  pose proof (removeUser_stored r sid m room E) as Hst. fold m1 in Hst.
  rewrite Hu in Hst. cbn in Hst. rewrite String.eqb_refl in Hst.
  assert (timers m1 = [r]) as Ht1.
  { subst m1. unfold removeUser. rewrite E, Hu. cbn.
    by rewrite String.eqb_refl, Ht. }
  split; [done|]. split; [unfold getRoomUsers; by rewrite Hst|].
  split; [apply logOf_removeUser|].
  assert (fireTimer m1 = {| rooms := delete r (rooms m1); timers := [] |})
    as Hfire.
  { unfold fireTimer. rewrite Ht1.
    by apply (cleanUp_empty r (RoomManager.mkState (rooms m1) []) _ Hst). }
  split; [rewrite Hfire; cbn; apply lookup_delete_eq|].
  split; [unfold logOf; rewrite Hfire; cbn; by rewrite lookup_delete_eq|].
  intros now sid' name m2.
  pose proof (addUser_stored now r sid' name m1) as Hst2. cbn zeta in Hst2.
  fold m2 in Hst2.
  assert (timers m2 = [r]) as Ht2.
  { subst m2. by rewrite addUser_timers. }
  assert (fireTimer m2 = {| rooms := rooms m2; timers := [] |}) as Hfire2.
  { unfold fireTimer. rewrite Ht2.
    apply (cleanUp_occupied r (RoomManager.mkState (rooms m2) []) _ Hst2).
    cbn. rewrite getRoom_room, Hst. cbn. done. }
  rewrite Hfire2. split; [done|]. unfold logOf at 1. cbn. rewrite Hst2. cbn.
  rewrite getRoom_drawingState. apply logOf_removeUser.
Qed.

Lemma last_member_leaves_witness :
  let joined := addUser 1 "room" "s1" VUndefined RoomManager.new in
  let m := joined.1 in
  let room := (getRoom 0 "room" m).2 in
  let m1 := removeUser "room" "s1" m in
  rooms m !! "room" = Some room
  ∧ users room = [("s1", joined.2)]
  ∧ timers m = []
  ∧ timers m1 = ["room"]
  ∧ rooms (fireTimer m1) !! "room" = None
  ∧ rooms (fireTimer (addUser 2 "room" "s2" VUndefined m1).1)
    = rooms (addUser 2 "room" "s2" VUndefined m1).1.
Proof.
  intros joined m room m1.
  assert (rooms m !! "room" = Some room) as H1 by (vm_compute; reflexivity).
  assert (users room = [("s1", joined.2)]) as H2 by reflexivity.
  assert (timers m = []) as H3 by reflexivity.
  destruct (last_member_leaves "room" "s1" joined.2 room m H1 H2 H3)
    as (Ht & _ & _ & Hgone & _ & Hkept).
  split; [exact H1|]. split; [exact H2|]. split; [exact H3|].
  split; [exact Ht|]. split; [exact Hgone|].
  exact (proj1 (Hkept 2 "s2" VUndefined)).
Defined.

(** A timer that is still pending is not restarted.  When the only
    member leaves, somebody else joins and leaves again, two timers are
    pending, and already the first of them, started by the first leave,
    deletes the room. *)
Theorem first_timer_deletes_reemptied_room r sid user room m now sid' name :
  rooms m !! r = Some room →
  users room = [(sid, user)] →
  timers m = [] →
  let m1 := removeUser r sid m in
  let m2 := (addUser now r sid' name m1).1 in
  let m3 := removeUser r sid' m2 in
  timers m3 = [r; r]
  ∧ getRoomUsers r m3 = []
  ∧ rooms (fireTimer m3) !! r = None
  ∧ timers (fireTimer m3) = [r].
Proof.
  intros E Hu Ht m1 m2 m3.
  assert (timers m1 = [r]) as Ht1.
  { subst m1. unfold removeUser. rewrite E, Hu. cbn.
    by rewrite String.eqb_refl, Ht. }
  pose proof (addUser_stored now r sid' name m1) as Hst2. cbn zeta in Hst2.
  fold m2 in Hst2.
  assert (users (getRoom now r m1).2 = []) as Hempty.
  { pose proof (removeUser_stored r sid m room E) as Hst. fold m1 in Hst.
    rewrite Hu in Hst. cbn in Hst. rewrite String.eqb_refl in Hst.
    by rewrite getRoom_room, Hst. }
  rewrite Hempty in Hst2. cbn in Hst2.
  assert (timers m2 = [r]) as Ht2.
  { subst m2. by rewrite addUser_timers. }
  pose proof (removeUser_stored r sid' m2 _ Hst2) as Hst3. fold m3 in Hst3.
  cbn in Hst3. rewrite String.eqb_refl in Hst3.
  assert (timers m3 = [r; r]) as Ht3.
  { subst m3. unfold removeUser. rewrite Hst2. cbn.
    by rewrite String.eqb_refl, Ht2. }
  split; [done|]. split; [unfold getRoomUsers; by rewrite Hst3|].
  unfold fireTimer. rewrite Ht3.
  rewrite (cleanUp_empty r (RoomManager.mkState (rooms m3) [r]) _ Hst3)
    by done.
  cbn. split; [apply lookup_delete_eq|done].
Qed.

Lemma first_timer_deletes_reemptied_room_witness :
  let joined := addUser 1 "room" "s1" VUndefined RoomManager.new in
  let m := joined.1 in
  let room := (getRoom 0 "room" m).2 in
  let m3 := removeUser "room" "s2"
              (addUser 2 "room" "s2" VUndefined
                 (removeUser "room" "s1" m)).1 in
  rooms m !! "room" = Some room
  ∧ users room = [("s1", joined.2)]
  ∧ timers m = []
  ∧ timers m3 = ["room"; "room"]
  ∧ rooms (fireTimer m3) !! "room" = None.
Proof.
  intros joined m room m3.
  assert (rooms m !! "room" = Some room) as H1 by (vm_compute; reflexivity).
  assert (users room = [("s1", joined.2)]) as H2 by reflexivity.
  assert (timers m = []) as H3 by reflexivity.
  destruct (first_timer_deletes_reemptied_room "room" "s1" joined.2 room m
              2 "s2" VUndefined H1 H2 H3) as (Ht & _ & Hgone & _).
  split; [exact H1|]. split; [exact H2|]. split; [exact H3|].
  split; [exact Ht|]. exact Hgone.
Defined.

Lemma values_ids (us : list (string * User)) :
  (∀ k u, (k, u) ∈ us → user_id u = k) →
  user_id <$> JsMap.values us = JsMap.keys us.
Proof.
  unfold JsMap.values, JsMap.keys.
  induction us as [|[k u] us IH]; intros H; [done|]. cbn.
  rewrite (H k u) by (apply elem_of_cons; by left).
  f_equal. apply IH. intros k' u' Hin. apply H, elem_of_cons. by right.
Qed.

(** What holds of every room after every sequence of events: it is
    stored under its own id, no socket is listed twice among its
    members, and every colour a member has or that is marked used comes
    from the palette. *)
Theorem rooms_stay_consistent es r room :
  rooms (manager (Server.run es)) !! r = Some room →
  room_id room = r
  ∧ NoDup (user_id <$> getRoomUsers r (manager (Server.run es)))
  ∧ Forall (λ u, user_color u ∈ userColors)
      (getRoomUsers r (manager (Server.run es)))
  ∧ usedColors room ⊆ list_to_set userColors.
Proof.
  intros E. destruct (registry_ok_run es r room E)
    as (Hid & Hnd & Husers & Hcolors).
  unfold getRoomUsers. rewrite E.
  split; [done|]. split; [|split].
  - rewrite values_ids; [done|]. intros k u Hin. by apply Husers.
  - apply Forall_forall. intros u Hin. unfold JsMap.values in Hin.
    apply list_elem_of_fmap in Hin as ([k u'] & -> & Hin). cbn.
    by apply (Husers k u').
  - intros color Hin. apply elem_of_list_to_set. by apply Hcolors.
Qed.

Lemma rooms_stay_consistent_witness :
  let es := thirteenJoins in
  let room := (getRoom 0 "room" (manager (Server.run es))).2 in
  rooms (manager (Server.run es)) !! "room" = Some room
  ∧ room_id room = "room"
  ∧ NoDup (user_id <$> getRoomUsers "room" (manager (Server.run es))).
Proof.
  intros es room.
  assert (rooms (manager (Server.run es)) !! "room" = Some room) as H
    by (vm_compute; reflexivity).
  destruct (rooms_stay_consistent es "room" room H) as (H1 & H2 & _).
  split; [exact H|]. split; [exact H1|exact H2].
Defined.

Lemma userColors_NoDup : NoDup userColors.
Proof. compute_done. Qed.

Lemma getRoomUsers_getRoom now r m :
  getRoomUsers r m = JsMap.values (users (getRoom now r m).2).
Proof.
  unfold getRoomUsers. rewrite getRoom_room. by destruct (rooms m !! r).
Qed.

Lemma joinAll_snoc r joins join m :
  joinAll r (joins ++ [join]) m
  = (addUser join.1.1 r join.1.2 join.2 (joinAll r joins m)).1.
Proof. unfold joinAll. by rewrite fold_left_app. Qed.

(** The state of a room that was missing and has then been joined by
    distinct sockets, no more of them than there are colours. *)
Lemma joinAll_room r joins m now :
  rooms m !! r = None →
  NoDup ((λ join, join.1.2) <$> joins) →
  (length joins ≤ length userColors)%nat →
  let room := (getRoom now r (joinAll r joins m)).2 in
  JsMap.keys (users room) = (λ join, join.1.2) <$> joins
  ∧ user_id <$> JsMap.values (users room) = (λ join, join.1.2) <$> joins
  ∧ user_color <$> JsMap.values (users room)
    = take (length joins) userColors
  ∧ usedColors room = list_to_set (take (length joins) userColors).
Proof.
  intros E. revert now.
  induction joins as [|[[t sid] name] joins IH] using rev_ind;
    intros now Hnd Hlen room.
  - subst room. cbn. rewrite getRoom_room, E. done.
  - rewrite fmap_app in Hnd. apply NoDup_app in Hnd as (Hnd & Hfresh & _).
    rewrite length_app in Hlen. cbn [length] in Hlen.
    assert (length joins ≤ length userColors)%nat as Hlen' by lia.
    destruct (IH t Hnd Hlen') as (Hkeys & Hids & Hcols & Hused).
    set (m0 := joinAll r joins m) in *.
    set (room0 := (getRoom t r m0).2) in *.
    assert (sid ∉ JsMap.keys (users room0)) as Hsid.
    { rewrite Hkeys. intros Hin. apply (Hfresh sid Hin). cbn.
      apply elem_of_cons. by left. }
    destruct (lookup_lt_is_Some_2 userColors (length joins))
      as [color Hcolor]; [lia|].
    assert (pickColor room0 = color) as Hpick.
    { apply (pickColor_first room0 (take (length joins) userColors) color
               (drop (S (length joins)) userColors)).
      - symmetry. by apply take_drop_middle.
      - apply Forall_forall. intros x Hx. rewrite Hused.
        by apply elem_of_list_to_set.
      - rewrite Hused. intros Hin%elem_of_list_to_set.
        pose proof userColors_NoDup as Hp.
        rewrite <- (take_drop_middle _ _ _ Hcolor) in Hp.
        apply NoDup_app in Hp as (_ & Hp & _). apply (Hp color Hin).
        apply elem_of_cons. by left. }
    pose proof (addUser_stored t r sid name m0) as Hst. cbn zeta in Hst.
    pose proof (addUser_room t r sid name m0) as (Huid & Hucol & _).
    cbn zeta in Huid, Hucol. fold room0 in Hst, Hucol.
    rewrite Hucol, Hpick in Hst.
    subst room. rewrite joinAll_snoc. cbn [fst snd]. fold m0.
    rewrite getRoom_room, Hst. cbn [default users usedColors].
    rewrite JsMap_set_fresh by done.
    unfold JsMap.keys, JsMap.values in *.
    rewrite !fmap_app. cbn.
    rewrite (fmap_app fst), !(fmap_app snd), (fmap_app user_id),
      (fmap_app user_color). cbn.
    rewrite Hkeys, Hids, Hcols, Huid, Hucol, Hpick, Hused.
    rewrite length_app. cbn.
    replace (length joins + 1)%nat with (S (length joins)) by lia.
    rewrite (take_S_r _ _ _ Hcolor).
    split; [done|]. split; [done|]. split; [done|].
    rewrite list_to_set_snoc_L. apply union_comm_L.
Qed.

(** The first joins get the palette in order.  When distinct sockets,
    no more of them than there are palette colours, join a room that
    did not exist, the members are listed in joining order and the
    [k]-th of them has the [k]-th palette colour; so no two of them have
    the same colour. *)
Theorem first_joins_get_palette_in_order r joins m :
  rooms m !! r = None →
  NoDup ((λ join, join.1.2) <$> joins) →
  (length joins ≤ length userColors)%nat →
  let members := getRoomUsers r (joinAll r joins m) in
  user_id <$> members = (λ join, join.1.2) <$> joins
  ∧ user_color <$> members = take (length joins) userColors
  ∧ NoDup (user_color <$> members).
Proof.
  intros E Hnd Hlen members. subst members.
  rewrite (getRoomUsers_getRoom 0).
  destruct (joinAll_room r joins m 0 E Hnd Hlen) as (_ & Hids & Hcols & _).
  split; [done|]. split; [done|]. rewrite Hcols.
  pose proof userColors_NoDup as Hp.
  rewrite <- (take_drop (length joins) userColors) in Hp.
  by apply NoDup_app in Hp as (? & _).
Qed.

Lemma first_joins_get_palette_in_order_witness :
  let joins := [(1, "s1", VStr "ann"); (2, "s2", VUndefined);
                (3, "s3", VStr "cy")] in
  let members := getRoomUsers "room" (joinAll "room" joins RoomManager.new) in
  rooms RoomManager.new !! "room" = None
  ∧ NoDup ((λ join, join.1.2) <$> joins)
  ∧ (length joins ≤ length userColors)%nat
  ∧ user_color <$> members = ["#FF6B6B"; "#4ECDC4"; "#45B7D1"].
Proof.
  intros joins members.
  assert (rooms RoomManager.new !! "room" = None) as H1 by reflexivity.
  assert (NoDup ((λ join, join.1.2) <$> joins)) as H2 by compute_done.
  assert (length joins ≤ length userColors)%nat as H3 by (cbn; lia).
  split; [exact H1|]. split; [exact H2|]. split; [exact H3|].
  exact (proj1 (proj2 (first_joins_get_palette_in_order
                         "room" joins RoomManager.new H1 H2 H3))).
Defined.

Lemma JsMap_get_Some_key {V} k (v : V) us :
  JsMap.get k us = Some v → k ∈ JsMap.keys us.
Proof.
  intros H. destruct (decide (k ∈ JsMap.keys us)) as [|Hn]; [done|].
  apply JsMap_get_None in Hn. congruence.
Qed.

(** A cursor update is last-write-wins on one field of one member.  When
    the room or the member is missing the registry is unchanged (no
    room is created); otherwise the member's [cursor] is the new value
    and its other fields are kept.  Other members, the number of
    members, the set of rooms and the timers are as before. *)
Theorem updateUserCursor_touches_one_field r sid cursor m :
  let m' := updateUserCursor r sid cursor m in
  (getUser r sid m = None → m' = m)
  ∧ (∀ user,
       getUser r sid m = Some user →
       getUser r sid m'
       = Some {| user_id := user_id user;
                 user_name := user_name user;
                 user_color := user_color user;
                 user_cursor := cursor;
                 user_joinedAt := user_joinedAt user |})
  ∧ (∀ sid', sid' ≠ sid → getUser r sid' m' = getUser r sid' m)
  ∧ length (getRoomUsers r m') = length (getRoomUsers r m)
  ∧ dom (rooms m') = dom (rooms m)
  ∧ timers m' = timers m.
Proof.
  intros m'. subst m'. unfold updateUserCursor, getUser, getRoomUsers.
  destruct (rooms m !! r) as [room|] eqn:E; [|by rewrite E].
  destruct (JsMap.get sid (users room)) as [user|] eqn:Eu; [|by rewrite E].
  cbn. rewrite lookup_insert_eq. cbn.
  split; [done|]. split; [|split; [|split; [|split]]].
  - intros user' [= <-]. by rewrite JsMap_get_set.
  - intros sid' Hne. by rewrite JsMap_get_set_ne.
  - unfold JsMap.values. rewrite !length_fmap.
    pose proof (JsMap_size_set sid
                  {| user_id := user_id user; user_name := user_name user;
                     user_color := user_color user; user_cursor := cursor;
                     user_joinedAt := user_joinedAt user |} (users room)) as Hs.
    rewrite decide_True in Hs by (by eapply JsMap_get_Some_key). done.
  - apply dom_insert_lookup_L. by eexists.
  - done.
Qed.

Lemma updateUserCursor_touches_one_field_witness :
  let joined := addUser 1 "room" "s1" (VStr "ann") RoomManager.new in
  let m := joined.1 in
  let m' := updateUserCursor "room" "s1" (VStr "here") m in
  getUser "room" "s2" m = None
  ∧ updateUserCursor "room" "s2" VNull m = m
  ∧ getUser "room" "s1" m = Some joined.2
  ∧ (user_cursor <$> getUser "room" "s1" m') = Some (VStr "here")
  ∧ "s2" ≠ "s1"
  ∧ getUser "room" "s2" m' = getUser "room" "s2" m.
Proof.
  intros joined m m'.
  assert (getUser "room" "s2" m = None) as H1 by (vm_compute; reflexivity).
  assert (getUser "room" "s1" m = Some joined.2) as H2
    by (vm_compute; reflexivity).
  assert ("s2" ≠ "s1") as H3 by discriminate.
  destruct (updateUserCursor_touches_one_field "room" "s2" VNull m)
    as (Hnone & _).
  destruct (updateUserCursor_touches_one_field "room" "s1" (VStr "here") m)
    as (_ & Hset & Hothers & _).
  split; [exact H1|]. split; [exact (Hnone H1)|]. split; [exact H2|].
  split; [|split; [exact H3|exact (Hothers "s2" H3)]].
  unfold m'. rewrite (Hset joined.2 H2). reflexivity.
Defined.

(** Room statistics.  For an unknown room [getRoomStats] returns [null]
    and creates nothing.  After every sequence of events, the statistics
    of a room count the members that are listed, and the drawing
    statistics add up. *)
Theorem getRoomStats_consistent es r :
  let m := manager (Server.run es) in
  match getRoomStats r m with
  | None => rooms m !! r = None
  | Some stats =>
      stats_id stats = r
      ∧ userCount stats = length (stats_users stats)
      ∧ stats_users stats = getRoomUsers r m
      ∧ let '(total, active, undoneCount) := drawingStats stats in
        total = (active + undoneCount)%nat
  end.
Proof.
  intros m. unfold getRoomStats.
  destruct (rooms m !! r) as [room|] eqn:E; [|done]. cbn.
  split; [done|]. split; [|split; [done|]].
  - unfold getRoomUsers. rewrite E. unfold JsMap.values, JsMap.size.
    by rewrite length_fmap.
  - unfold DrawingState.getStats. symmetry. apply active_plus_undone.
    rewrite <- (logOf_lookup r room m E). apply logs_wf_run.
Qed.

(** Whenever some palette colour is free, the colour picked is one that
    was not marked used. *)
Lemma pickColor_free room color :
  color ∈ userColors → color ∉ usedColors room →
  pickColor room ∉ usedColors room.
Proof.
  intros Hin Hfree. unfold pickColor.
  destruct (filter _ userColors) as [|c rest] eqn:E.
  - assert (color ∈ filter (λ color, color ∉ usedColors room) userColors)
      as H by (by apply list_elem_of_filter).
    rewrite E in H. by inversion H.
  - assert (c ∈ filter (λ color, color ∉ usedColors room) userColors) as H
      by (rewrite E; apply elem_of_cons; by left).
    by apply list_elem_of_filter in H as [? _].
Qed.

(** Joining twice.  When a socket that is a member of a room joins it
    again, its entry is replaced, so the room has as many members as
    before, but the colour of the first join stays marked used beside
    the new one.  If a palette colour was free the two colours differ,
    and then the first colour is still marked used after the socket has
    left, although no member has it on account of that socket. *)
Theorem rejoin_leaks_first_colour es now now' r sid name name' :
  let m := manager (Server.run es) in
  let first := addUser now r sid name m in
  let second := addUser now' r sid name' first.1 in
  let m' := removeUser r sid second.1 in
  length (getRoomUsers r second.1) = length (getRoomUsers r first.1)
  ∧ getUser r sid second.1 = Some second.2
  ∧ user_color first.2 ∈ usedColorsOf r second.1
  ∧ user_color second.2 ∈ usedColorsOf r second.1
  ∧ ((∃ color, color ∈ userColors ∧ color ∉ usedColorsOf r first.1) →
     user_color second.2 ≠ user_color first.2
     ∧ getUser r sid m' = None
     ∧ user_color first.2 ∈ usedColorsOf r m').
Proof.
  intros m first second m'.
  pose proof (registry_ok_run es : registry_ok m) as Hok.
  pose proof (registry_ok_addUser now r sid name m Hok) as Hok1.
  fold first in Hok1.
  pose proof (registry_ok_addUser now' r sid name' first.1 Hok1) as Hok2.
  fold second in Hok2.
  pose proof (addUser_stored now r sid name m) as Hst1. cbn zeta in Hst1.
  fold first in Hst1.
  pose proof (addUser_stored now' r sid name' first.1) as Hst2.
  cbn zeta in Hst2. fold second in Hst2.
  pose proof (addUser_room now' r sid name' first.1) as (_ & Hcol2 & Hget2).
  cbn zeta in Hcol2, Hget2. fold second in Hcol2, Hget2.
  rewrite getRoom_room, Hst1 in Hst2, Hcol2. cbn in Hst2, Hcol2.
  split; [|split; [done|split; [|split]]].
  - unfold getRoomUsers. rewrite Hst1, Hst2. cbn.
    unfold JsMap.values. rewrite !length_fmap.
    pose proof (JsMap_size_set sid second.2
                  (JsMap.set sid first.2 (users (getRoom now r m).2))) as Hs.
    rewrite decide_True in Hs; [done|].
    eapply JsMap_get_Some_key, JsMap_get_set.
  - unfold usedColorsOf. rewrite Hst2. cbn. set_solver.
  - unfold usedColorsOf. rewrite Hst2. cbn. set_solver.
  - intros (color & Hin & Hfree).
    unfold usedColorsOf in Hfree. rewrite Hst1 in Hfree. cbn in Hfree.
    assert (user_color second.2 ∉
              ({[user_color first.2]} ∪ usedColors (getRoom now r m).2))
      as Hnew.
    { rewrite Hcol2.
      match goal with
      | |- pickColor ?room ∉ _ =>
          apply (pickColor_free room color Hin Hfree)
      end. }
    assert (user_color second.2 ≠ user_color first.2) as Hne.
    { intros Heq. apply Hnew. rewrite Heq. apply elem_of_union. left.
      by apply elem_of_singleton. }
    split; [done|].
    pose proof (removeUser_stored r sid second.1 _ Hst2) as Hst3.
    fold m' in Hst3. cbn [users] in Hst3. rewrite JsMap_get_set in Hst3.
    destruct (Hok2 r _ Hst2) as (_ & Hnd & _ & _). cbn [users] in Hnd.
    split.
    + unfold getUser. rewrite Hst3. cbn. by apply JsMap_get_delete.
    + unfold usedColorsOf. rewrite Hst3. cbn.
      apply elem_of_difference. split.
      * apply elem_of_union. right. apply elem_of_union. left.
        by apply elem_of_singleton.
      * intros ?%elem_of_singleton. by apply Hne.
Qed.

Lemma rejoin_leaks_first_colour_witness :
  let m := manager (Server.run []) in
  let first := addUser 1 "room" "s1" VUndefined m in
  let second := addUser 2 "room" "s1" VUndefined first.1 in
  let m' := removeUser "room" "s1" second.1 in
  ("#2A9D8F" ∈ userColors ∧ "#2A9D8F" ∉ usedColorsOf "room" first.1)
  ∧ user_color second.2 ≠ user_color first.2
  ∧ getUser "room" "s1" m' = None
  ∧ user_color first.2 ∈ usedColorsOf "room" m'.
Proof.
  intros m first second m'.
  assert ("#2A9D8F" ∈ userColors ∧ "#2A9D8F" ∉ usedColorsOf "room" first.1)
    as H by (split; compute_done).
  split; [exact H|].
  destruct (rejoin_leaks_first_colour [] 1 2 "room" "s1" VUndefined VUndefined)
    as (_ & _ & _ & _ & Hleak).
  exact (Hleak (ex_intro _ "#2A9D8F" H)).
Defined.

End RegistryFurther.

(** ** The gateway: isolation, replies, broadcasts *)

Section GatewayFurther.
Import RoomManager Server.

Implicit Types (m : RoomManager.state) (c : Connection) (r : string).

Lemma onJoinRoom_spec now roomIdArg userName c m :
  let roomId := default "default" roomIdArg in
  let joined := addUser now roomId (socket_id c) userName m in
  onJoinRoom now roomIdArg userName c m
  = ({| socket_id := socket_id c;
        currentRoom := roomId;
        currentUser := Some joined.2 |},
     joined.1,
     [ (ToSocket (socket_id c),
        InitCanvas joined.2 (DrawingState.getFullState (logOf roomId m))
          (getRoomUsers roomId joined.1));
       (ToOthers roomId (socket_id c),
        UserJoined joined.2 (getRoomUsers roomId joined.1)) ]).
Proof.
  intros roomId joined. unfold onJoinRoom. fold roomId. fold joined.
  pose proof (addUser_stored now roomId (socket_id c) userName m) as Hst.
  cbn zeta in Hst. fold joined in Hst.
  destruct joined as [m1 user] eqn:Ej. cbn in Hst |- *.
  unfold getRoom. rewrite Hst. cbn. rewrite getRoom_drawingState. done.
Qed.

(** The log of a room other than the sender's current room is not
    changed by a message, and no log at all is changed by a message that
    is not one of the four log intents. *)
Lemma handle_logs now i c m r :
  r ≠ currentRoom c
  ∨ (i ≠ UndoIn ∧ i ≠ RedoIn ∧ i ≠ ClearCanvasIn
     ∧ ∀ data, i ≠ DrawStrokeIn data) →
  logOf r (handle now i c m).1.2 = logOf r m.
Proof.
  intros H. destruct i; cbn [handle].
  - rewrite onJoinRoom_spec. cbn. apply logOf_addUser.
  - pose proof (onDrawStroke_spec now data c m) as Hs.
    destruct (onDrawStroke now data c m) as [[c' m'] out].
    destruct Hs as (_ & _ & _ & Hother). cbn.
    destruct H as [H|(_ & _ & _ & H)]; [by apply Hother|].
    by destruct (H data).
  - cbn. apply logOf_updateUserCursor.
  - pose proof (onUndo_spec now c m) as Hs.
    destruct (onUndo now c m) as [[c' m'] out].
    destruct Hs as (_ & _ & _ & Hother). cbn.
    destruct H as [H|(H & _)]; [by apply Hother|done].
  - pose proof (onRedo_spec now c m) as Hs.
    destruct (onRedo now c m) as [[c' m'] out].
    destruct Hs as (_ & _ & _ & Hother). cbn.
    destruct H as [H|(_ & H & _)]; [by apply Hother|done].
  - pose proof (onClearCanvas_spec now c m) as Hs.
    destruct (onClearCanvas now c m) as [[c' m'] out].
    destruct Hs as (_ & _ & _ & Hother). cbn.
    destruct H as [H|(_ & _ & H & _)]; [by apply Hother|done].
  - done.
  - done.
  - unfold onDisconnect. destruct (currentUser c); [|done].
    destruct (String.eqb _ _); cbn; [done|]. apply logOf_removeUser.
Qed.

(** Room isolation.  A message from a socket changes the log of no room
    but the socket's current one; and joining, moving the cursor,
    changing tool, asking for statistics and disconnecting change no log
    at all. *)
Theorem rooms_are_isolated now sid i s :
  (∀ r, r ≠ currentRoom (connectionOf sid s) →
        logOf r (manager (step (Receive now sid i) s)) = logOf r (manager s))
  ∧ (i ≠ UndoIn → i ≠ RedoIn → i ≠ ClearCanvasIn →
     (∀ data, i ≠ DrawStrokeIn data) →
     ∀ r, logOf r (manager (step (Receive now sid i) s))
          = logOf r (manager s)).
Proof.
  split.
  - intros r Hr. cbn [step].
    pose proof (handle_logs now i (connectionOf sid s) (manager s) r
                  (or_introl Hr)) as H.
    by destruct (handle now i _ (manager s)) as [[c' m'] out].
  - intros H1 H2 H3 H4 r. cbn [step].
    pose proof (handle_logs now i (connectionOf sid s) (manager s) r
                  (or_intror (conj H1 (conj H2 (conj H3 H4))))) as H.
    by destruct (handle now i _ (manager s)) as [[c' m'] out].
Qed.

Lemma rooms_are_isolated_witness :
  let s := Server.run [Receive 1 "s1" (JoinRoom (Some "a") VUndefined);
                       Receive 2 "s2" (JoinRoom (Some "b") VUndefined);
                       Receive 3 "s2" (DrawStrokeIn (VObj []))] in
  "b" ≠ currentRoom (connectionOf "s1" s)
  ∧ logOf "b" (manager (step (Receive 4 "s1" ClearCanvasIn) s))
    = logOf "b" (manager s)
  ∧ logOf "a" (manager (step (Receive 4 "s1" (CursorMoveIn VNull)) s))
    = logOf "a" (manager s).
Proof.
  intros s.
  assert ("b" ≠ currentRoom (connectionOf "s1" s)) as H
    by (vm_compute; discriminate).
  split; [exact H|]. split.
  - exact (proj1 (rooms_are_isolated 4 "s1" ClearCanvasIn s) "b" H).
  - apply (proj2 (rooms_are_isolated 4 "s1" (CursorMoveIn VNull) s));
      discriminate.
Defined.

(** What [join-room] does.  The closure gets the room id (['default']
    when the message has none) and the user object that [addUser]
    returned, which is then a member of the room.  Exactly two messages
    are emitted: [init-canvas] to the joining socket, with that user,
    the full state of the room's log and the member list, in which the
    new user is the entry of this socket; and [user-joined], with the
    same user and list, to the other sockets of the room.  No log is
    changed. *)
Theorem join_room_replies now roomIdArg userName c m :
  let roomId := default "default" roomIdArg in
  let '(c', m', out) := onJoinRoom now roomIdArg userName c m in
  ∃ user,
    c' = {| socket_id := socket_id c;
            currentRoom := roomId;
            currentUser := Some user |}
    ∧ user_id user = socket_id c
    ∧ getUser roomId (socket_id c) m' = Some user
    ∧ user ∈ getRoomUsers roomId m'
    ∧ out = [ (ToSocket (socket_id c),
               InitCanvas user (DrawingState.getFullState (logOf roomId m))
                 (getRoomUsers roomId m'));
              (ToOthers roomId (socket_id c),
               UserJoined user (getRoomUsers roomId m')) ]
    ∧ ∀ r, logOf r m' = logOf r m.
Proof.
  intros roomId. rewrite onJoinRoom_spec. fold roomId.
  set (joined := addUser now roomId (socket_id c) userName m).
  exists joined.2.
  destruct (addUser_room now roomId (socket_id c) userName m)
    as (Hid & _ & Hget). cbn zeta in Hid, Hget. fold joined in Hid, Hget.
  split; [done|]. split; [done|]. split; [done|]. split; [|split; [done|]].
  - unfold getUser, getRoomUsers in *.
    destruct (rooms joined.1 !! roomId) as [room|]; [|done].
    apply JsMap_get_Some in Hget. unfold JsMap.values.
    apply list_elem_of_fmap. by exists (socket_id c, joined.2).
  - intros r. apply logOf_addUser.
Qed.

Lemma getUser_removeUser r sid m :
  registry_ok m → getUser r sid (removeUser r sid m) = None.
Proof.
  intros Hok. unfold getUser at 1.
  destruct (rooms m !! r) as [room|] eqn:E.
  - rewrite (removeUser_stored r sid m room E).
    destruct (Hok r room E) as (_ & Hnd & _).
    destruct (JsMap.get sid (users room)) eqn:Eu; cbn; [|done].
    by apply JsMap_get_delete.
  - unfold removeUser. by rewrite E, E.
Qed.

(** What a disconnection does, after every sequence of events.  If the
    socket never joined, or if the room id it joined with is the empty
    string, nothing is changed and nothing is emitted (in the second
    case the member entry stays).  Otherwise the socket is removed from
    its current room and is no member of it afterwards, and one
    [user-left] message with its id, its name and the remaining members
    goes to the other sockets of that room.  No log is changed. *)
Theorem disconnect_removes_member es c :
  let m := manager (Server.run es) in
  let '(c', m', out) := onDisconnect c m in
  c' = c
  ∧ (∀ r, logOf r m' = logOf r m)
  ∧ match currentUser c with
    | None => m' = m ∧ out = []
    | Some user =>
        if decide (currentRoom c = "") then m' = m ∧ out = []
        else
          m' = removeUser (currentRoom c) (socket_id c) m
          ∧ getUser (currentRoom c) (socket_id c) m' = None
          ∧ out = [ (ToOthers (currentRoom c) (socket_id c),
                     UserLeft (socket_id c) (user_name user)
                       (getRoomUsers (currentRoom c) m')) ]
    end.
Proof.
  intros m. unfold onDisconnect.
  destruct (currentUser c) as [user|]; [|done].
  destruct (String.eqb (currentRoom c) "") eqn:E.
  - apply String.eqb_eq in E. by rewrite decide_True.
  - apply String.eqb_neq in E. rewrite decide_False by done.
    split; [done|]. split; [intros r; apply logOf_removeUser|].
    split; [done|]. split; [|done].
    apply getUser_removeUser, registry_ok_run.
Qed.

(** What the ['undo'] and ['redo'] handlers broadcast.  In any state,
    the ['undo'] handler either emits nothing and leaves every log as it
    was, or emits one [undo] message to the sender's current room that
    names the id of an operation stored in that room's log, which was
    visible and is now in the undone set.  The ['redo'] handler either
    emits nothing and leaves every log as it was, or emits one [redo]
    message naming a stored id that was in the undone set and is no
    longer. *)
Theorem undo_redo_broadcasts now c m :
  let log := logOf (currentRoom c) m in
  (let '(_, m', out) := onUndo now c m in
   (out = [] ∧ ∀ r, logOf r m' = logOf r m)
   ∨ ∃ i, out = [(ToRoom (currentRoom c),
                  UndoEvent (DrawingState.Undo i))]
          ∧ i ∈ DrawingState.ids log
          ∧ (i ∉ DrawingState.undoneOperations log)
          ∧ DrawingState.undoneOperations (logOf (currentRoom c) m')
            = {[i]} ∪ DrawingState.undoneOperations log)
  ∧ (let '(_, m', out) := onRedo now c m in
     (out = [] ∧ ∀ r, logOf r m' = logOf r m)
     ∨ ∃ i, out = [(ToRoom (currentRoom c),
                    RedoEvent (DrawingState.Redo i))]
            ∧ i ∈ DrawingState.ids log
            ∧ i ∈ DrawingState.undoneOperations log
            ∧ DrawingState.undoneOperations (logOf (currentRoom c) m')
              = DrawingState.undoneOperations log ∖ {[i]}).
Proof.
  intros log. split.
  - pose proof (onUndo_spec now c m) as H. cbn zeta in H. fold log in H.
    destruct (onUndo now c m) as [[c' m'] out].
    destruct H as (_ & -> & (room & Hroom & Hlog) & Hother).
    rewrite (logOf_lookup _ _ _ Hroom), Hlog. unfold DrawingState.undo.
    pose proof (undo_scan_spec (DrawingState.operations log)
                  (DrawingState.undoneOperations log)) as Hs.
    destruct DrawingState.undo_scan as [i|]; cbn.
    + right. exists i. destruct Hs as (pre & op & post & Hops & <- & Hni & _).
      split; [done|]. split; [|done]. unfold DrawingState.ids.
      rewrite Hops. apply list_elem_of_fmap_2, elem_of_app. right.
      apply elem_of_cons. by left.
    + left. split; [done|]. intros r.
      destruct (decide (r = currentRoom c)) as [->|Hne]; [|by apply Hother].
      rewrite (logOf_lookup _ _ _ Hroom), Hlog. unfold DrawingState.undo.
      pose proof (undo_scan_all_undone _ _ Hs) as ->. done.
  - pose proof (onRedo_spec now c m) as H. cbn zeta in H. fold log in H.
    destruct (onRedo now c m) as [[c' m'] out].
    destruct H as (_ & -> & (room & Hroom & Hlog) & Hother).
    rewrite (logOf_lookup _ _ _ Hroom), Hlog.
    unfold DrawingState.redo, DrawingState.redo_scan.
    destruct (redo_from_spec (DrawingState.undoneOperations log)
                (DrawingState.operations log) (-1)) as (_ & Hcase & _).
    case_bool_decide as Hr; cbn.
    + right. eexists. split; [done|].
      destruct Hcase as [?|[Hin Hid]]; [congruence|].
      split; [exact Hid|]. split; [exact Hin|done].
    + left. split; [done|]. intros r.
      destruct (decide (r = currentRoom c)) as [->|Hne]; [|by apply Hother].
      rewrite (logOf_lookup _ _ _ Hroom), Hlog.
      unfold DrawingState.redo, DrawingState.redo_scan.
      by rewrite bool_decide_eq_false_2 by (intros Hn; by apply Hn).
Qed.

(** What the server keeps of a stroke payload.  Every own property of
    the payload other than [id] and [timestamp] is stored, and
    broadcast, with the value the client sent; [type] is ['stroke'] when
    the payload has no [type] of its own; and [timestamp] is the clock
    reading of the server. *)
Theorem stroke_payload_is_stored now data c m :
  let op := storedStroke now data c m in
  (∀ k v, own_props data !! k = Some v → k ≠ "id" → k ≠ "timestamp" →
          DrawingState.get op k = v)
  ∧ (own_props data !! "type" = None →
     DrawingState.get op "type" = VStr "stroke")
  ∧ DrawingState.get op "timestamp" = VNum (inject_Z now).
Proof.
  intros op. subst op. unfold storedStroke.
  cbn [DrawingState.addOperation snd]. split; [|split].
  - intros k v Hk H1 H2. rewrite get_props by done. cbn.
    unfold strokeOperation, spread.
    by rewrite (lookup_union_Some_l _ _ _ _ Hk).
  - intros Ht. rewrite get_props by done. cbn.
    unfold strokeOperation, spread. by rewrite lookup_union_r.
  - unfold DrawingState.get, DrawingState.object. cbn.
    by rewrite lookup_insert_eq.
Qed.

Lemma stroke_payload_is_stored_witness :
  let data := VObj [("color", VStr "#102030"); ("tool", VStr "eraser")] in
  let op := storedStroke 7 data (connect "s1") RoomManager.new in
  own_props data !! "tool" = Some (VStr "eraser")
  ∧ "tool" ≠ "id" ∧ "tool" ≠ "timestamp"
  ∧ DrawingState.get op "tool" = VStr "eraser"
  ∧ own_props data !! "type" = None
  ∧ DrawingState.get op "type" = VStr "stroke".
Proof.
  intros data op.
  assert (own_props data !! "tool" = Some (VStr "eraser")) as H1
    by (vm_compute; reflexivity).
  assert ("tool" ≠ "id") as H2 by discriminate.
  assert ("tool" ≠ "timestamp") as H3 by discriminate.
  assert (own_props data !! "type" = None) as H4 by (vm_compute; reflexivity).
  destruct (stroke_payload_is_stored 7 data (connect "s1") RoomManager.new)
    as (Hkeep & Htype & _).
  split; [exact H1|]. split; [exact H2|]. split; [exact H3|].
  split; [exact (Hkeep "tool" (VStr "eraser") H1 H2 H3)|].
  split; [exact H4|exact (Htype H4)].
Defined.

(** *** Closures and member entries *)

Lemma getUser_addUser_other now r0 sid0 name m r sid :
  sid ≠ sid0 → getUser r sid (addUser now r0 sid0 name m).1 = getUser r sid m.
Proof.
  intros Hne. destruct (decide (r0 = r)) as [<-|Hr].
  - unfold getUser at 1. rewrite addUser_stored. cbn.
    rewrite JsMap_get_set_ne by done. unfold getUser.
    rewrite getRoom_room. by destruct (rooms m !! r0).
  - unfold getUser. by rewrite rooms_addUser_ne.
Qed.

Lemma getUser_removeUser_other r0 sid0 m r sid :
  sid ≠ sid0 → getUser r sid (removeUser r0 sid0 m) = getUser r sid m.
Proof.
  intros Hne. destruct (decide (r0 = r)) as [<-|Hr].
  - unfold getUser. destruct (rooms m !! r0) as [room|] eqn:E.
    + rewrite (removeUser_stored r0 sid0 m room E).
      destruct (JsMap.get sid0 (users room)); cbn; [|done].
      by rewrite JsMap_get_delete_ne.
    + unfold removeUser. by rewrite E, E.
  - unfold getUser. by rewrite rooms_removeUser_ne.
Qed.

Lemma getUser_log_handler now r0 m log r sid :
  getUser r sid
    (putRoom r0 (withLog (getRoom now r0 m).2 log) (getRoom now r0 m).1)
  = getUser r sid m.
Proof.
  unfold getUser, putRoom. cbn. destruct (decide (r0 = r)) as [<-|Hr].
  - rewrite lookup_insert_eq. cbn. rewrite getRoom_room.
    by destruct (rooms m !! r0).
  - rewrite lookup_insert_ne by done. by rewrite getRoom_lookup_ne.
Qed.

Lemma getUser_cleanUp r0 m r sid :
  getUser r sid (cleanUp r0 m) = getUser r sid m.
Proof.
  unfold cleanUp. destruct (rooms m !! r0) as [room|] eqn:E; [|done].
  destruct (users room) as [|entry rest] eqn:Eu; [|done]. cbn.
  unfold getUser. cbn. destruct (decide (r0 = r)) as [<-|Hr].
  - by rewrite lookup_delete_eq, E, Eu.
  - by rewrite lookup_delete_ne.
Qed.

Lemma getUser_fireTimer m r sid :
  getUser r sid (fireTimer m) = getUser r sid m.
Proof.
  unfold fireTimer. destruct (timers m) as [|r0 rest]; [done|].
  apply (getUser_cleanUp r0 {| rooms := rooms m; timers := rest |}).
Qed.

Lemma getUser_updateUserCursor_other r0 sid0 cursor m r sid :
  sid ≠ sid0 →
  getUser r sid (updateUserCursor r0 sid0 cursor m) = getUser r sid m.
Proof.
  intros Hne. unfold updateUserCursor.
  destruct (rooms m !! r0) as [room|] eqn:E; [|done].
  destruct (JsMap.get sid0 (users room)) as [user|]; [|done].
  unfold getUser, putRoom. cbn. destruct (decide (r0 = r)) as [<-|Hr].
  - rewrite lookup_insert_eq, E. cbn. by rewrite JsMap_get_set_ne.
  - by rewrite lookup_insert_ne.
Qed.

(** A message from one socket leaves the member entries of all other
    sockets, in every room, as they were. *)
Lemma getUser_handle_other now i c m r sid :
  sid ≠ socket_id c → getUser r sid (handle now i c m).1.2 = getUser r sid m.
Proof.
  intros Hne. destruct i; cbn [handle].
  - rewrite onJoinRoom_spec. cbn. by apply getUser_addUser_other.
  - unfold onDrawStroke.
    pose proof (getUser_log_handler now (currentRoom c) m) as H.
    destruct (getRoom now (currentRoom c) m) as [m1 room]. cbn. apply H.
  - cbn. by apply getUser_updateUserCursor_other.
  - unfold onUndo.
    pose proof (getUser_log_handler now (currentRoom c) m) as H.
    destruct (getRoom now (currentRoom c) m) as [m1 room].
    destruct (DrawingState.undo _) as [log u]. cbn. apply H.
  - unfold onRedo.
    pose proof (getUser_log_handler now (currentRoom c) m) as H.
    destruct (getRoom now (currentRoom c) m) as [m1 room].
    destruct (DrawingState.redo _) as [log u]. cbn. apply H.
  - unfold onClearCanvas.
    pose proof (getUser_log_handler now (currentRoom c) m) as H.
    destruct (getRoom now (currentRoom c) m) as [m1 room]. cbn. apply H.
  - done.
  - done.
  - unfold onDisconnect. destruct (currentUser c); [|done].
    destruct (String.eqb _ _); cbn; [done|].
    by apply getUser_removeUser_other.
Qed.

(** What a message that is neither [join-room] nor a disconnection does
    to the sender's own entries: they stay, with the same id, name and
    colour. *)
Lemma getUser_handle_own now i c m r u :
  (∀ roomId userName, i ≠ JoinRoom roomId userName) →
  i ≠ Disconnect →
  getUser r (socket_id c) m = Some u →
  ∃ u', getUser r (socket_id c) (handle now i c m).1.2 = Some u'
        ∧ user_id u' = user_id u
        ∧ user_name u' = user_name u
        ∧ user_color u' = user_color u.
Proof.
  intros Hjoin Hdisc Hu. destruct i; cbn [handle]; try done.
  - by destruct (Hjoin roomId userName).
  - exists u. split; [|done]. rewrite <- Hu. unfold onDrawStroke.
    pose proof (getUser_log_handler now (currentRoom c) m) as H.
    destruct (getRoom now (currentRoom c) m) as [m1 room]. cbn. apply H.
  - cbn. unfold updateUserCursor.
    destruct (rooms m !! currentRoom c) as [room|] eqn:E; [|by exists u].
    destruct (JsMap.get (socket_id c) (users room)) as [user|] eqn:Eu;
      [|by exists u].
    unfold getUser in *. unfold putRoom. cbn.
    destruct (decide (currentRoom c = r)) as [<-|Hr].
    + rewrite lookup_insert_eq. cbn. rewrite JsMap_get_set.
      rewrite E, Eu in Hu. injection Hu as <-. by eexists.
    + rewrite lookup_insert_ne by done. by exists u.
  - exists u. split; [|done]. rewrite <- Hu. unfold onUndo.
    pose proof (getUser_log_handler now (currentRoom c) m) as H.
    destruct (getRoom now (currentRoom c) m) as [m1 room].
    destruct (DrawingState.undo _) as [log x]. cbn. apply H.
  - exists u. split; [|done]. rewrite <- Hu. unfold onRedo.
    pose proof (getUser_log_handler now (currentRoom c) m) as H.
    destruct (getRoom now (currentRoom c) m) as [m1 room].
    destruct (DrawingState.redo _) as [log x]. cbn. apply H.
  - exists u. split; [|done]. rewrite <- Hu. unfold onClearCanvas.
    pose proof (getUser_log_handler now (currentRoom c) m) as H.
    destruct (getRoom now (currentRoom c) m) as [m1 room]. cbn. apply H.
  - by exists u.
  - by exists u.
Qed.

Lemma handle_socket_id now i c m :
  socket_id (handle now i c m).1.1 = socket_id c.
Proof.
  destruct i; try (by rewrite handle_connection).
  cbn [handle]. by rewrite onJoinRoom_spec.
Qed.

Lemma connections_ok_init : connections_ok Server.init.
Proof. intros sid c H. cbn in H. by rewrite lookup_empty in H. Qed.

Lemma connectionOf_ok sid s :
  connections_ok s → connection_ok sid (connectionOf sid s) (manager s).
Proof.
  intros Hok. unfold connectionOf.
  destruct (connections s !! sid) as [c|] eqn:E; cbn; [by apply Hok|].
  split; [done|]. intros u H. discriminate.
Qed.

Lemma connections_ok_step e s : connections_ok s → connections_ok (step e s).
Proof.
  intros Hok. destruct e as [now sid0 i|].
  - pose proof (connectionOf_ok sid0 s Hok) as [Hid0 Hc0].
    pose proof (handle_socket_id now i (connectionOf sid0 s) (manager s))
      as Hsid.
    pose proof (getUser_handle_other now i (connectionOf sid0 s) (manager s))
      as Hother.
    pose proof (getUser_handle_own now i (connectionOf sid0 s) (manager s))
      as Hown.
    pose proof (handle_connection now i (connectionOf sid0 s) (manager s))
      as Hconn.
    pose proof (onJoinRoom_spec now) as Hjoin.
    cbn [step].
    destruct (handle now i (connectionOf sid0 s) (manager s))
      as [[c' m'] out] eqn:Eh.
    cbn [fst snd] in *. rewrite Hid0 in *.
    intros sid c Hlook. cbn [connections manager] in *.
    destruct (decide (sid = sid0)) as [->|Hne].
    + (* The sender's own closure. *)
      destruct i;
        rewrite ?lookup_insert_eq, ?lookup_delete_eq in Hlook;
        try discriminate; injection Hlook as <-;
        try (rewrite Hconn by done; split; [done|]; intros u Hu;
             destruct (Hc0 u Hu) as (u0 & Hget & Hi & Hn & Hcl);
             destruct (Hown (currentRoom (connectionOf sid0 s)) u0)
               as (u' & Hget' & Hi' & Hn' & Hcl');
             [done|done|done|];
             exists u'; split; [done|]; split; [congruence|];
             split; congruence).
      cbn [handle] in Eh. rewrite Hjoin in Eh. cbn zeta in Eh.
      injection Eh as <- <- _. split; [done|]. cbn.
      intros u [= <-].
      destruct (addUser_room now (default "default" roomId)
                  (socket_id (connectionOf sid0 s)) userName (manager s))
        as (Hi & _ & Hget). cbn zeta in Hi, Hget. rewrite Hid0 in *.
      by eexists.
    + (* The closure of another socket. *)
      assert (connections s !! sid = Some c) as Hold.
      { by destruct i;
          rewrite ?lookup_insert_ne, ?lookup_delete_ne in Hlook. }
      destruct (Hok sid c Hold) as [Hid Hc]. split; [done|].
      intros u Hu. destruct (Hc u Hu) as (u' & Hget & Hrest).
      exists u'. split; [|done]. by rewrite Hother.
  - intros sid c Hlook. cbn in Hlook |- *.
    destruct (Hok sid c Hlook) as [Hid Hc]. split; [done|].
    intros u Hu. destruct (Hc u Hu) as (u' & Hget & Hrest).
    exists u'. split; [|done]. by rewrite getUser_fireTimer.
Qed.

Lemma connections_ok_run es : connections_ok (Server.run es).
Proof.
  induction es as [|e es IH] using rev_ind; [apply connections_ok_init|].
  rewrite server_run_snoc. by apply connections_ok_step.
Qed.

(** The closure of a socket and the registry agree.  After every
    sequence of events, the user object that a connected socket's
    closure holds is the entry of that socket in the closure's current
    room, with the same id, name and colour: the name and colour that
    the handlers read from the closure are the registered ones. *)
Theorem closure_user_is_registered es sid c u :
  connections (Server.run es) !! sid = Some c →
  currentUser c = Some u →
  socket_id c = sid
  ∧ ∃ u', getUser (currentRoom c) sid (manager (Server.run es)) = Some u'
          ∧ user_id u' = sid
          ∧ user_name u' = user_name u
          ∧ user_color u' = user_color u.
Proof.
  intros Hlook Hu. destruct (connections_ok_run es sid c Hlook) as [Hid Hc].
  split; [done|]. by apply Hc.
Qed.

Lemma closure_user_is_registered_witness :
  let es := [Receive 1 "s1" (JoinRoom (Some "a") (VStr "ann"));
             Receive 2 "s1" (CursorMoveIn (VNum 3))] in
  let c := connectionOf "s1" (Server.run es) in
  connections (Server.run es) !! "s1" = Some c
  ∧ ∃ u u', currentUser c = Some u
            ∧ getUser "a" "s1" (manager (Server.run es)) = Some u'
            ∧ user_name u' = user_name u
            ∧ user_cursor u' = VNum 3.
Proof.
  intros es c.
  assert (connections (Server.run es) !! "s1" = Some c) as Hlook
    by (vm_compute; reflexivity).
  split; [exact Hlook|].
  destruct (currentUser c) as [u|] eqn:Hu; [|vm_compute in Hu; discriminate].
  destruct (closure_user_is_registered es "s1" c u Hlook Hu)
    as (_ & u' & Hget & _ & Hname & _).
  exists u, u'. split; [done|]. split; [exact Hget|]. split; [exact Hname|].
  vm_compute in Hget. injection Hget as <-. reflexivity.
Defined.

(** Switching rooms leaves a ghost.  ['join-room'] does not leave the
    room the socket was in: when a socket that is a member of one room
    joins another, its entry in the first room stays, and stays after
    the socket disconnects, when its closure is gone; the disconnection
    removes the socket from the second room only.  The messages the two
    events emit go to the socket itself and to the others of the second
    room; the first room is told nothing. *)
Theorem room_switch_leaves_ghost_member es now now' sid roomIdArg name :
  let s := Server.run es in
  let old := currentRoom (connectionOf sid s) in
  let roomId := default "default" roomIdArg in
  let s1 := step (Receive now sid (JoinRoom roomIdArg name)) s in
  let s2 := step (Receive now' sid Disconnect) s1 in
  is_Some (currentUser (connectionOf sid s)) →
  roomId ≠ old →
  is_Some (getUser old sid (manager s1))
  ∧ is_Some (getUser old sid (manager s2))
  ∧ connections s2 !! sid = None
  ∧ (roomId ≠ "" → getUser roomId sid (manager s2) = None)
  ∧ ∃ out, emitted s2 = emitted s ++ out
           ∧ Forall (λ e, e.1 = ToSocket sid ∨ e.1 = ToOthers roomId sid) out.
Proof.
  intros s old roomId s1 s2 [u Hu] Hne.
  pose proof (connectionOf_ok sid s (connections_ok_run es)) as [Hid Hc].
  destruct (Hc u Hu) as (u0 & Hget & _). fold old in Hget.
  assert (manager s1 = (addUser now roomId sid name (manager s)).1
          ∧ connectionOf sid s1
            = {| socket_id := sid; currentRoom := roomId;
                 currentUser :=
                   Some (addUser now roomId sid name (manager s)).2 |}
          ∧ ∃ out1, emitted s1 = emitted s ++ out1
              ∧ Forall (λ e, e.1 = ToSocket sid ∨ e.1 = ToOthers roomId sid)
                  out1)
    as (Hm1 & Hc1 & out1 & Hout1 & Hall1).
  { subst s1. cbn [step handle]. rewrite onJoinRoom_spec. cbn zeta.
    rewrite Hid. fold roomId. cbn. split; [done|]. split.
    - unfold connectionOf. cbn. by rewrite lookup_insert_eq.
    - eexists. split; [done|].
      apply Forall_cons. split; [by left|].
      apply Forall_cons. split; [by right|]. by apply Forall_nil. }
  assert (getUser old sid (manager s1) = Some u0) as Hget1.
  { rewrite Hm1. unfold getUser. by rewrite rooms_addUser_ne. }
  split; [by eexists|].
  clearbody s1. subst s2. cbn [step handle]. rewrite Hc1.
  unfold onDisconnect.
  cbn [currentUser currentRoom socket_id].
  destruct (String.eqb roomId "") eqn:E; cbn.
  - apply String.eqb_eq in E.
    split; [by eexists|]. split; [by rewrite lookup_delete_eq|].
    split; [done|]. exists out1. rewrite app_nil_r. by split.
  - apply String.eqb_neq in E.
    split.
    { exists u0. rewrite <- Hget1. unfold getUser.
      by rewrite rooms_removeUser_ne. }
    split; [by rewrite lookup_delete_eq|].
    split.
    { intros _. apply getUser_removeUser. rewrite Hm1.
      apply registry_ok_addUser, registry_ok_run. }
    exists (out1 ++ [(ToOthers roomId sid,
                      UserLeft sid
                        (user_name
                           (addUser now roomId sid name (manager s)).2)
                        (getRoomUsers roomId
                           (removeUser roomId sid (manager s1))))]).
    split; [by rewrite Hout1, app_assoc|].
    apply Forall_app. split; [done|].
    apply Forall_cons. split; [by right|]. by apply Forall_nil.
Qed.

Lemma room_switch_leaves_ghost_member_witness :
  let s := Server.run [Receive 1 "s1" (JoinRoom (Some "a") (VStr "ann"))] in
  let s2 := step (Receive 3 "s1" Disconnect)
              (step (Receive 2 "s1" (JoinRoom (Some "b") (VStr "ann"))) s) in
  is_Some (getUser "a" "s1" (manager s2))
  ∧ connections s2 !! "s1" = None
  ∧ getUser "b" "s1" (manager s2) = None.
Proof.
  intros s s2.
  destruct (room_switch_leaves_ghost_member
              [Receive 1 "s1" (JoinRoom (Some "a") (VStr "ann"))]
              2 3 "s1" (Some "b") (VStr "ann"))
    as (_ & Hghost & Hconn & Hgone & _).
  - vm_compute. by eexists.
  - vm_compute. discriminate.
  - split; [exact Hghost|]. split; [exact Hconn|].
    apply Hgone. discriminate.
Defined.

End GatewayFurther.
